(** * adiff: tokenising, aligning and rendering textual differences

    A shallow embedding of [adiff.py] (word and line diffs in the style of
    GNU wdiff and diff) together with the parts of the Python standard
    library it relies on, and proofs of the properties its specification
    states.

    Conventions.
    - A Python [str] is a [list ascii]; slices are [take]/[drop].
    - A compiled regular expression is represented by what the program
      observes of it: its source text and the spans [re.finditer] returns.
    - A Python exception is the [Raise] branch of the [exc] monad;
      generators are embedded as the list of the values they yield.
    - Python dictionaries are [gmap]s, [list.sort] is [merge_sort]. *)

From Stdlib Require Import ZArith Lia ZifyNat Ascii String DecimalString.
From stdpp Require Import gmap strings list sorting.

Local Open Scope nat_scope.

(** [lia] also decides goals with division and remainder by a constant. *)
Ltac Zify.zify_post_hook ::= Z.to_euclidean_division_equations.

(** ** Python values *)

Abbreviation str := (list ascii).

Definition lit (s : string) : str := list_ascii_of_string s.

Definition nl : ascii := Ascii.ascii_of_nat 10.

(** Exceptions the program can raise. *)
Inductive pyerr := AssertionError | IndexError.

Inductive exc (A : Type) :=
| Ret (a : A)
| Raise (e : pyerr).
Arguments Ret {A} a.
Arguments Raise {A} e.

Global Instance exc_ret : MRet exc := λ A, Ret.
Global Instance exc_bind : MBind exc := λ A B f x,
  match x with
  | Ret a => f a
  | Raise e => Raise e
  end.

Global Instance exc_fmap : FMap exc := λ A B f x,
  match x with
  | Ret a => Ret (f a)
  | Raise e => Raise e
  end.

Definition assert (b : bool) : exc unit :=
  if b then Ret tt else Raise AssertionError.

(** [l[i]] for a non-negative index. *)
Definition getitem {A} (l : list A) (i : nat) : exc A :=
  match l !! i with
  | Some x => Ret x
  | None => Raise IndexError
  end.

Module Py.

(** [s[i:j]] and [s[i:]] for non-negative [i], [j]. *)
Definition slice {A} (s : list A) (i j : nat) : list A := take (j - i) (drop i s).
Definition slice_from {A} (s : list A) (i : nat) : list A := drop i s.

(** Truth value of a string: non-empty. *)
Definition truthy {A} (s : list A) : bool :=
  match s with
  | [] => false
  | _ :: _ => true
  end.

(** [s.count("\n")] *)
Definition count_nl (s : str) : nat :=
  length (filter (λ c, c = nl) s).

(** [s.endswith("\n")] *)
Definition endswith_nl (s : str) : bool :=
  match last s with
  | Some c => bool_decide (c = nl)
  | None => false
  end.

(** ["".join(l)] *)
Definition join_empty (l : list str) : str := concat l.

(** ["\n".join(l)] *)
Fixpoint join_nl (l : list str) : str :=
  match l with
  | [] => []
  | [x] => x
  | x :: l' => x ++ nl :: join_nl l'
  end.

(** Line boundaries recognised by [str.splitlines], on the code points
    below 256. *)
Definition is_linebreak (c : ascii) : bool :=
  let n := nat_of_ascii c in
  (n =? 10) || (n =? 11) || (n =? 12) || (n =? 13) ||
  (n =? 28) || (n =? 29) || (n =? 30) || (n =? 133).

(** [s.splitlines(False)]: [cur] is the line being read, reversed. A
    carriage return followed by a line feed is one boundary, and no
    empty line is produced after a final boundary. *)
Fixpoint splitlines_aux (cur : str) (s : str) : list str :=
  match s with
  | [] => match cur with [] => [] | _ => [reverse cur] end
  | c :: s' =>
      if is_linebreak c then
        reverse cur ::
          match s' with
          | c' :: s'' =>
              if (nat_of_ascii c =? 13) && (nat_of_ascii c' =? 10)
              then splitlines_aux [] s''
              else splitlines_aux [] s'
          | [] => []
          end
      else splitlines_aux (c :: cur) s'
  end.

Definition splitlines (s : str) : list str := splitlines_aux [] s.

(** [l[:n]] and [l[-n:]]; note that [l[-0:]] is [l[0:]], the whole list. *)
Definition head_slice {A} (l : list A) (n : nat) : list A := take n l.
Definition tail_slice {A} (l : list A) (n : nat) : list A :=
  match n with
  | 0 => l
  | _ => drop (length l - n) l
  end.

(** [s.lower()], on the ASCII letters. *)
Definition lower_char (c : ascii) : ascii :=
  let n := nat_of_ascii c in
  if (65 <=? n) && (n <=? 90) then ascii_of_nat (n + 32) else c.
Definition lower (s : str) : str := lower_char <$> s.

(** ["%d" % z] *)
Definition fmt_d (z : Z) : str := lit (NilZero.string_of_int (Z.to_int z)).

(** [re.sub(r"(?m)^", p, s)]: [p] is inserted at the start of the string
    and after every line feed, also a final one. *)
Fixpoint after_each_nl (p : str) (s : str) : str :=
  match s with
  | [] => []
  | c :: s' => if bool_decide (c = nl) then c :: p ++ after_each_nl p s'
               else c :: after_each_nl p s'
  end.
Definition sub_line_starts (p s : str) : str := p ++ after_each_nl p s.

End Py.

(** ** Regular expressions, as the program sees them *)

Module Re.

(** A match object: the program only calls [start()] and [end()]. *)
Record Match := mkMatch { mstart : nat; mend : nat }.

(** A pattern: its text (compared with [r"\n"] by [LineDiffer]) and the
    matches [re.finditer] yields on a string. *)
Record regex := mkRegex { pattern : string; finditer : str → list Match }.

(** What [re.finditer] guarantees: the matches lie inside the string,
    are scanned left to right and do not overlap. [prev] is the end of
    the match before. *)
Fixpoint spans_ok (n prev : nat) (ms : list Match) : bool :=
  match ms with
  | [] => true
  | m :: ms' =>
      (prev <=? mstart m) && (mstart m <=? mend m) && (mend m <=? n)
      && spans_ok n (mend m) ms'
  end.

Definition matches_ok (r : regex) (s : str) : bool :=
  spans_ok (length s) 0 (finditer r s).

(** [r"\s+"]: maximal runs of ASCII white space. [run] is the start of
    the run being read. *)
Definition is_space (c : ascii) : bool :=
  let n := nat_of_ascii c in
  (n =? 32) || ((9 <=? n) && (n <=? 13)) || ((28 <=? n) && (n <=? 31)).
Fixpoint finditer_ws (run : option nat) (pos : nat) (s : str) : list Match :=
  match s with
  | [] => match run with Some st => [mkMatch st pos] | None => [] end
  | c :: s' =>
      if is_space c then
        finditer_ws (Some (default pos run)) (S pos) s'
      else
        match run with
        | Some st => mkMatch st pos :: finditer_ws None (S pos) s'
        | None => finditer_ws None (S pos) s'
        end
  end.
Definition whitespace : regex := mkRegex "\s+" (finditer_ws None 0).

(** [""]: the empty match at every position. *)
Definition finditer_empty (s : str) : list Match :=
  (λ p, mkMatch p p) <$> seq 0 (S (length s)).
Definition empty : regex := mkRegex "" finditer_empty.

(** A single literal character, such as [" "] or ["a"]. *)
Fixpoint finditer_char (x : ascii) (pos : nat) (s : str) : list Match :=
  match s with
  | [] => []
  | c :: s' => if bool_decide (c = x) then mkMatch pos (S pos) :: finditer_char x (S pos) s'
               else finditer_char x (S pos) s'
  end.
Definition char (x : ascii) : regex := mkRegex (String x EmptyString) (finditer_char x 0).

(** [r"\b"]: the empty match wherever a word character meets the start
    or the end of the string or a character that is not one. [prev] says
    whether the character before [pos] is a word character. *)
Definition is_word (c : ascii) : bool :=
  let n := nat_of_ascii c in
  ((48 <=? n) && (n <=? 57)) || ((65 <=? n) && (n <=? 90)) ||
  ((97 <=? n) && (n <=? 122)) || (n =? 95).
Fixpoint finditer_wb (prev : bool) (pos : nat) (s : str) : list Match :=
  match s with
  | [] => if prev then [mkMatch pos pos] else []
  | c :: s' =>
      if xorb prev (is_word c)
      then mkMatch pos pos :: finditer_wb (is_word c) (S pos) s'
      else finditer_wb (is_word c) (S pos) s'
  end.
Definition word_boundary : regex := mkRegex "\b" (finditer_wb false 0).

(** [r"\n"]: every line feed. *)
Definition newline : regex := mkRegex "\n" (finditer_char nl 0).

End Re.

Import Re.

(** ** Utilities of adiff *)

(** [countlines]: the line feeds, plus one for a last line without one. *)
Definition countlines (s : str) : nat :=
  Py.count_nl s + (if Py.truthy s && negb (Py.endswith_nl s) then 1 else 0).

(** One round of [isplit]'s loop body after the zero-width tests: the
    content before the separator [m], then the separator unless it sits at
    the end of the string, where the generator returns. *)
Definition isplit_yield (s : str) (prev_end : nat) (m : Match) (rest : list str) : list str :=
  Py.slice s prev_end (mstart m) ::
    (if mstart m =? length s then []
     else Py.slice s (mstart m) (mend m) :: rest).

(** [isplit]'s main loop. [m_end] is [m.end()] of the current match (0 for
    the [FakeMatchObj]) and [sepi] what the iterator still holds, so that
    [nextm] is its head. The inner [fix] is the nested [while] that moves
    past a zero-width match when the next match starts at the same place. *)
Fixpoint isplit_loop (s : str) (m_end : nat) (sepi : list Match) : list str :=
  match sepi with
  | [] => [Py.slice_from s m_end]
  | nextm :: sepi' =>
      if (mstart nextm =? mend nextm) && (mend nextm =? m_end)
      then isplit_loop s (mend nextm) sepi'
      else
        (fix inner (m : Match) (sepi : list Match) {struct sepi} : list str :=
           match sepi with
           | nextm :: sepi' =>
               if (mstart m =? mend m) && (mend m =? mstart nextm)
               then inner nextm sepi'
               else isplit_yield s m_end m (isplit_loop s (mend m) sepi)
           | [] => isplit_yield s m_end m (isplit_loop s (mend m) sepi)
           end) nextm sepi'
  end.

Definition isplit (patt : regex) (s : str) : list str :=
  isplit_loop s 0 (finditer patt s).

(** The nested [while] of [isplit] on its own: the match it stops at and
    what is left in the iterator. *)
Fixpoint skip_zero_width (m : Match) (sepi : list Match) : Match * list Match :=
  match sepi with
  | nextm :: sepi' =>
      if (mstart m =? mend m) && (mend m =? mstart nextm)
      then skip_zero_width nextm sepi'
      else (m, sepi)
  | [] => (m, sepi)
  end.

(** ** Tokens and the tokenizer *)

Record Token := mkToken { word : str; sep : str; idx : Z }.

Module Token.
(** [Token.__str__] *)
Definition __str__ (t : Token) : str := word t ++ sep t.

(** [Token.__nonzero__], the truth value the program declares. *)
Definition __nonzero__ (t : Token) : bool := Py.truthy (word t) || Py.truthy (sep t).

(** [bool(t)] as Python 3 computes it: [__nonzero__] is not part of its
    truth protocol, [Token] defines no [__bool__], so the truth value is
    that of the underlying three-field tuple: its length is not zero. *)
Definition __len__ (t : Token) : nat := 3.
Definition truth (t : Token) : bool := negb (__len__ t =? 0).
End Token.

(** [l[::2]] *)
Fixpoint stride2 {A} (l : list A) : list A :=
  match l with
  | [] => []
  | x :: l' => x :: match l' with
                    | [] => []
                    | _ :: l'' => stride2 l''
                    end
  end.

(** [map(f, xs, ys, zs)], which stops with the shortest argument. *)
Fixpoint map3 {A B C D} (f : A → B → C → D) (xs : list A) (ys : list B) (zs : list C) : list D :=
  match xs, ys, zs with
  | x :: xs', y :: ys', z :: zs' => f x y z :: map3 f xs' ys' zs'
  | _, _, _ => []
  end.

Module Tokenizer.

(** Making the list of splits even: an empty separator is appended after
    a last content, an empty last content is dropped. *)
Definition even_splits (splits : list str) : list str :=
  match last splits with
  | Some l => if Py.truthy l then splits ++ [[]] else removelast splits
  | None => splits
  end.

(** [Tokenizer.__init__]: the token list. *)
Definition __init__ (s : str) (boundary : regex) : list Token :=
  let splits := even_splits (isplit boundary s) in
  map3 mkToken (stride2 splits) (stride2 (drop 1 splits))
       (Z.of_nat <$> seq 0 (length splits / 2)).

(** [Tokenizer.join]: [None] for an empty range. *)
Definition join (tokens : list Token) (first limit : nat) : exc (option Token) :=
  assert (first <=? length tokens);;
  assert ((first <=? limit) && (limit <=? length tokens));;
  if limit <=? first then Ret None
  else if limit - 1 =? first then
    t ← getitem tokens first; Ret (Some t)
  else
    tf ← getitem tokens first;
    assert (bool_decide (idx tf = Z.of_nat first));;
    tl ← getitem tokens (limit - 1);
    Ret (Some (mkToken
      (Py.join_empty (Token.__str__ <$> Py.slice tokens first (limit - 1)) ++ word tl)
      (sep tl)
      (Z.of_nat first))).

End Tokenizer.


(** ** difflib.SequenceMatcher

    The matcher of the standard library as [Differ] uses it: built with
    [isjunk=None] and the default [autojunk=True], over two lists of
    hashable elements. Indices are natural numbers; where Python writes
    [i-k+1] the embedding writes [i + 1 - k], the same number since
    [k <= i + 1] there. *)

Module difflib.
Section SequenceMatcher.
Context `{Countable A}.
Variables a b : list A.

(** A matching block [(i, j, n)] and a region [(alo, ahi, blo, bhi)]. *)
Definition block : Type := nat * nat * nat.
Definition region : Type := nat * nat * nat * nat.

(** [__chain_b]: the positions of every element of [b] ... *)
Definition chain_setdefault_append (b2j : gmap A (list nat)) (ie : nat * A) : gmap A (list nat) :=
  <[ie.2 := default [] (b2j !! ie.2) ++ [ie.1]]> b2j.
Definition b2j_full : gmap A (list nat) :=
  foldl chain_setdefault_append ∅ (imap pair b).

(** ... no element is junk ... *)
Definition bjunk : gset A := ∅.
Definition isbjunk (x : A) : bool := bool_decide (x ∈ bjunk).

(** ... and in a sequence of 200 elements or more, those that make up
    more than 1% of it (plus one) are purged as popular. *)
Definition ntest : nat := length b / 100 + 1.
Definition b2j : gmap A (list nat) :=
  if 200 <=? length b
  then filter (λ kv, length kv.2 ≤ ntest) b2j_full
  else b2j_full.

(** [j2lenget(j-1, 0)]; the key [-1] is never present. *)
Definition j2lenget_pred (j2len : gmap nat nat) (j : nat) : nat :=
  match j with
  | 0 => 0
  | S j' => default 0 (j2len !! j')
  end.

(** The inner [for j in b2j.get(a[i], nothing)] of [find_longest_match],
    with its [continue] and [break]. *)
Fixpoint scan_row (i blo bhi : nat) (j2len : gmap nat nat) (js : list nat)
    (newj2len : gmap nat nat) (best : block) : gmap nat nat * block :=
  match js with
  | [] => (newj2len, best)
  | j :: js' =>
      if j <? blo then scan_row i blo bhi j2len js' newj2len best
      else if bhi <=? j then (newj2len, best)
      else
        let k := j2lenget_pred j2len j + 1 in
        let newj2len := <[j := k]> newj2len in
        let best := if best.2 <? k then (i + 1 - k, j + 1 - k, k) else best in
        scan_row i blo bhi j2len js' newj2len best
  end.

(** [b2j.get(a[i], nothing)]; [i] runs below [ahi], which never exceeds
    [len(a)], so [a[i]] exists. *)
Definition b2j_get (i : nat) : list nat :=
  match a !! i with
  | Some x => default [] (b2j !! x)
  | None => []
  end.

(** The outer [for i in range(alo, ahi)]. *)
Definition scan_rows (alo ahi blo bhi : nat) : block :=
  (foldl (λ st i, scan_row i blo bhi st.1 (b2j_get i) ∅ st.2)
         (∅, (alo, blo, 0)) (seq alo (ahi - alo))).2.

(** [want(b[j]) and a[i] == b[j]], for indices inside the sequences. *)
Definition same_at (want : A → bool) (i j : nat) : bool :=
  match a !! i, b !! j with
  | Some x, Some y => want y && bool_decide (x = y)
  | _, _ => false
  end.

(** [while besti > alo and bestj > blo and want(b[bestj-1]) and
    a[besti-1] == b[bestj-1]: besti, bestj, bestsize = ...] *)
Fixpoint extend_left (want : A → bool) (alo blo : nat) (besti bestj bestsize : nat) : block :=
  match besti, bestj with
  | S i', S j' =>
      if (alo <? besti) && (blo <? bestj) && same_at want i' j'
      then extend_left want alo blo i' j' (S bestsize)
      else (besti, bestj, bestsize)
  | _, _ => (besti, bestj, bestsize)
  end.

(** [while besti+bestsize < ahi and bestj+bestsize < bhi and
    want(b[bestj+bestsize]) and a[besti+bestsize] == b[bestj+bestsize]:
    bestsize += 1]. The loop runs at most [ahi - (besti+bestsize)]
    times, which is what [fuel] starts from. *)
Fixpoint extend_right (want : A → bool) (ahi bhi : nat) (besti bestj : nat)
    (fuel : nat) (bestsize : nat) : nat :=
  match fuel with
  | 0 => bestsize
  | S fuel' =>
      if (besti + bestsize <? ahi) && (bestj + bestsize <? bhi)
         && same_at want (besti + bestsize) (bestj + bestsize)
      then extend_right want ahi bhi besti bestj fuel' (S bestsize)
      else bestsize
  end.

Definition extend (want : A → bool) (alo ahi blo bhi : nat) (best : block) : block :=
  let '(besti, bestj, bestsize) := extend_left want alo blo best.1.1 best.1.2 best.2 in
  (besti, bestj,
   extend_right want ahi bhi besti bestj (ahi - (besti + bestsize)) bestsize).

(** [find_longest_match(alo, ahi, blo, bhi)]: the longest run found
    through [b2j], extended first by elements that are not junk, then by
    junk. *)
Definition find_longest_match (alo ahi blo bhi : nat) : block :=
  let best := scan_rows alo ahi blo bhi in
  let best := extend (λ x, negb (isbjunk x)) alo ahi blo bhi best in
  extend isbjunk alo ahi blo bhi best.

(** The [while queue] loop of [get_matching_blocks]. The head of [queue]
    is the element [queue.pop()] takes. The loop body runs at most
    [fuel] times; [get_matching_blocks] starts it with enough. *)
Fixpoint match_regions (fuel : nat) (queue : list region) (matching_blocks : list block)
    : list region * list block :=
  match fuel, queue with
  | S fuel', (alo, ahi, blo, bhi) :: queue =>
      let '(i, j, k) := find_longest_match alo ahi blo bhi in
      if 0 <? k then
        let queue := if (alo <? i) && (blo <? j) then (alo, i, blo, j) :: queue else queue in
        let queue := if (i + k <? ahi) && (j + k <? bhi)
                     then (i + k, ahi, j + k, bhi) :: queue else queue in
        match_regions fuel' queue (matching_blocks ++ [(i, j, k)])
      else match_regions fuel' queue matching_blocks
  | _, _ => (queue, matching_blocks)
  end.

(** Tuples compare lexicographically. *)
Definition block_le (x y : block) : Prop :=
  x.1.1 < y.1.1 ∨
  (x.1.1 = y.1.1 ∧ (x.1.2 < y.1.2 ∨ (x.1.2 = y.1.2 ∧ x.2 ≤ y.2))).
Global Instance block_le_dec : RelDecision block_le.
Proof. intros x y. unfold block_le. apply _. Defined.

(** The loop that merges adjacent blocks; [(i1, j1, k1)] is the block
    being grown. *)
Fixpoint merge_adjacent (i1 j1 k1 : nat) (matching_blocks : list block) : list block :=
  match matching_blocks with
  | [] => if 0 <? k1 then [(i1, j1, k1)] else []
  | (i2, j2, k2) :: rest =>
      if (i1 + k1 =? i2) && (j1 + k1 =? j2)
      then merge_adjacent i1 j1 (k1 + k2) rest
      else (if 0 <? k1 then [(i1, j1, k1)] else []) ++ merge_adjacent i2 j2 k2 rest
  end.

Definition get_matching_blocks : list block :=
  let la := length a in
  let lb := length b in
  let matching_blocks := (match_regions (2 * la + 1) [(0, la, 0, lb)] []).2 in
  let matching_blocks := merge_sort block_le matching_blocks in
  merge_adjacent 0 0 0 matching_blocks ++ [(la, lb, 0)].

End SequenceMatcher.
End difflib.

(** ** The aligner *)

(** The operation of a block: common, unique to the left, unique to the
    right, different (["c"], ["l"], ["r"], ["d"] in the program). *)
Inductive opcode := op_c | op_l | op_r | op_d.

Global Instance opcode_eq_dec : EqDecision opcode.
Proof. solve_decision. Defined.

Record Delta := mkDelta { op : opcode; lhs : Token; rhs : Token }.

(** The two sides of a block, ["lhs"] and ["rhs"], for [getattr]. *)
Inductive side := side_lhs | side_rhs.

Definition getattr (b : Delta) (sd : side) : Token :=
  match sd with
  | side_lhs => lhs b
  | side_rhs => rhs b
  end.

(** [side[0]], compared with the operation of a block. *)
Definition side_initial (sd : side) : opcode :=
  match sd with
  | side_lhs => op_l
  | side_rhs => op_r
  end.

(** A differ: the two tokenizers and the two sequences handed to the
    [SequenceMatcher]. *)
Record differ := mkDiffer {
  atoks : list Token;
  btoks : list Token;
  seqm_a : list str;
  seqm_b : list str
}.

(** Truth value of what [Tokenizer.join] returns: [None] is false, a token
    has the truth value of tokens. *)
Definition truth_of (t : option Token) : bool :=
  match t with
  | Some t => Token.truth t
  | None => false
  end.

(** [t or Tokenizer.Token("", "", i - 1)] *)
Definition or_placeholder (t : option Token) (i : nat) : Token :=
  match t with
  | Some t' => if Token.truth t' then t' else mkToken [] [] (Z.of_nat i - 1)
  | None => mkToken [] [] (Z.of_nat i - 1)
  end.

Module Differ.

Definition __init__ (a b : str) (boundary : regex) (ignore_case : bool) : differ :=
  let atoks := Tokenizer.__init__ a boundary in
  let btoks := Tokenizer.__init__ b boundary in
  let lower := if ignore_case then Py.lower else id in
  mkDiffer atoks btoks ((λ t, lower (word t)) <$> atoks) ((λ t, lower (word t)) <$> btoks).

(** The common block of a match of [n > 0] tokens. [join] returns a
    token for a range that is not empty, so the last branch is never
    taken (see [join_range_not_None]); the embedding has no block
    without a token and lets it fail. *)
Definition common_block (atoks btoks : list Token) (i j n : nat) : exc (list Delta) :=
  lhs ← Tokenizer.join atoks i (i + n);
  rhs ← Tokenizer.join btoks j (j + n);
  match lhs, rhs with
  | Some lhs, Some rhs => Ret [mkDelta op_c lhs rhs]
  | _, _ => Raise AssertionError
  end.

(** The block for what lies between two matches, if anything does. A
    side without content gets a token that is empty but carries its
    position. *)
Definition change_block (lhs rhs : option Token) (i j : nat) : list Delta :=
  let op := if truth_of lhs && truth_of rhs then Some op_d
            else if truth_of lhs then Some op_l
            else if truth_of rhs then Some op_r
            else None in
  match op with
  | Some op => [mkDelta op (or_placeholder lhs i) (or_placeholder rhs j)]
  | None => []
  end.

(** The body of [blocks], over the matching blocks that remain. *)
Fixpoint blocks_from (atoks btoks : list Token) (curi curj : nat)
    (matching_blocks : list difflib.block) : exc (list Delta) :=
  match matching_blocks with
  | [] => Ret []
  | (i, j, n) :: matching_blocks =>
      lhs ← Tokenizer.join atoks curi i;
      rhs ← Tokenizer.join btoks curj j;
      let change := change_block lhs rhs i j in
      common ← (if 0 <? n then common_block atoks btoks i j n else Ret []);
      rest ← blocks_from atoks btoks (i + n) (j + n) matching_blocks;
      Ret (change ++ common ++ rest)
  end.

Definition blocks (self : differ) : exc (list Delta) :=
  blocks_from (atoks self) (btoks self) 0 0
    (difflib.get_matching_blocks (seqm_a self) (seqm_b self)).

End Differ.

(** ** Line differs *)

Module LineDiffer.

(** What one block adds to the two texts that are diffed by line. *)
Definition reduce_block (reverse : bool) (b : Delta) : str * str :=
  match op b with
  | op_c => let s := if reverse then Token.__str__ (rhs b) else Token.__str__ (lhs b) in
            (s, s)
  | op_l => (Token.__str__ (lhs b), [])
  | op_r => ([], Token.__str__ (rhs b))
  | op_d => let sep := if reverse then sep (rhs b) else sep (lhs b) in
            (word (lhs b) ++ sep, word (rhs b) ++ sep)
  end.

(** [LineDiffer.__init__]: with a boundary other than [r"\n"] the texts
    are first aligned on that boundary and rebuilt. *)
Definition __init__ (lhs rhs : str) (boundary : regex) (reverse ignore_case : bool)
    : exc differ :=
  if bool_decide (pattern boundary ≠ pattern Re.newline) then
    bs ← Differ.blocks (Differ.__init__ lhs rhs boundary ignore_case);
    let pieces := reduce_block reverse <$> bs in
    Ret (Differ.__init__ (Py.join_empty (fst <$> pieces)) (Py.join_empty (snd <$> pieces))
                         Re.newline ignore_case)
  else Ret (Differ.__init__ lhs rhs Re.newline ignore_case).

Definition no_newline_marker : str :=
  nl :: lit "\ No newline at end of file" ++ [nl].

Definition _addnl (s : str) : str :=
  if Py.endswith_nl s then s else s ++ no_newline_marker.

Definition _preface (s : str) (tok : Token) : str :=
  _addnl (Py.sub_line_starts s (word tok) ++ sep tok).

End LineDiffer.

(** The end of a common block that [_trim] keeps, ["head"] or ["tail"]. *)
Inductive direction := dir_head | dir_tail.

Module ContextDiffer.

Definition _trim (context : nat) (delta : Delta) (dir : direction) (inner : bool)
    : exc (Delta * bool) :=
  assert (bool_decide (op delta = op_c));;
  let lines := countlines (Token.__str__ (lhs delta)) in
  if lines <=? (if inner then context * 2 else context) then Ret (delta, false)
  else
    let word := match dir with
                | dir_head => Py.join_nl (Py.head_slice (Py.splitlines (word (lhs delta))) context)
                | dir_tail => Py.join_nl (Py.tail_slice (Py.splitlines (word (lhs delta))) context)
                end in
    let adjust_idx := match dir with
                      | dir_head => 0%Z
                      | dir_tail => Z.of_nat (lines - context)
                      end in
    Ret (mkDelta op_c
           (mkToken word (sep (lhs delta)) (idx (lhs delta) + adjust_idx))
           (mkToken word (sep (rhs delta)) (idx (rhs delta) + adjust_idx)),
         true).

(** The loops of [context_blocks] from the point where [delta] is the
    next change and [blocks] the hunk under construction; [blocki] is
    what the iterator still holds. [after] and the new [next_delta] are
    the next two items, if any. A trimmed [after] closes the hunk; if a
    change follows, the outer loop opens the next hunk with the tail of
    the same, untrimmed, block. *)
Fixpoint collect (context : nat) (blocks : list Delta) (delta : Delta)
    (blocki : list Delta) : exc (list (list Delta)) :=
  match blocki with
  | [] => Ret [blocks ++ [delta]]
  | [after] =>
      after' ← _trim context after dir_head false;
      Ret [blocks ++ [delta; after'.1]]
  | after :: next_delta :: blocki =>
      after' ← _trim context after dir_head true;
      if (after'.2 : bool) then
        before ← _trim context after dir_tail false;
        hunks ← collect context [before.1] next_delta blocki;
        Ret ((blocks ++ [delta; after'.1]) :: hunks)
      else collect context (blocks ++ [delta; after'.1]) next_delta blocki
  end.

Definition context_blocks (context : nat) (blocks : list Delta) : exc (list (list Delta)) :=
  match blocks with
  | [] => Ret []
  | first :: blocki =>
      if bool_decide (op first = op_c) then
        match blocki with
        | [] => Ret []
        | next_delta :: blocki =>
            before ← _trim context first dir_tail false;
            collect context [before.1] next_delta blocki
        end
      else collect context [] first blocki
  end.

Definition count_lines_of (blocks : list Delta) (sd : side) : nat :=
  sum_list ((λ b, countlines (Token.__str__ (getattr b sd))) <$> blocks).

Definition _linerange (blocks : list Delta) (sd : side) : exc str :=
  first ← getitem blocks 0;
  let idx := idx (getattr first sd) in
  let count := count_lines_of blocks sd in
  Ret (Py.fmt_d (idx + 1) ++
       (if 1 <? count then lit "," ++ Py.fmt_d (idx + Z.of_nat count) else [])).

Definition _hunk (blocks : list Delta) (sd : side) : str :=
  if negb (existsb (λ b, bool_decide (op b = side_initial sd) || bool_decide (op b = op_d))
                   blocks)
  then []
  else
    let sign := match sd with side_lhs => lit "- " | side_rhs => lit "+ " end in
    Py.join_empty
      ((λ b, if bool_decide (op b = op_c) then LineDiffer._preface (lit "  ") (lhs b)
             else if bool_decide (op b = op_d) then LineDiffer._preface (lit "! ") (getattr b sd)
             else if bool_decide (op b = side_initial sd)
                  then LineDiffer._preface sign (getattr b sd)
             else []) <$> blocks).

Definition hunk_text (blocks : list Delta) : exc str :=
  lrange ← _linerange blocks side_lhs;
  rrange ← _linerange blocks side_rhs;
  Ret (lit "***************" ++ [nl] ++ lit "*** " ++ lrange ++ lit " ****" ++ [nl]
       ++ _hunk blocks side_lhs
       ++ lit "--- " ++ rrange ++ lit " ----" ++ [nl]
       ++ _hunk blocks side_rhs).

Definition hunks (context : nat) (self : differ) : exc (list str) :=
  bs ← Differ.blocks self;
  hs ← context_blocks context bs;
  mapM hunk_text hs.

Definition get_diff (context : nat) (self : differ) : exc str :=
  Py.join_empty <$> hunks context self.

End ContextDiffer.

Module UnifiedDiffer.

Definition _linerange (blocks : list Delta) (sd : side) : exc str :=
  first ← getitem blocks 0;
  let idx := idx (getattr first sd) in
  let count := ContextDiffer.count_lines_of blocks sd in
  Ret (Py.fmt_d (idx + 1) ++
       (if 1 <? count then lit "," ++ Py.fmt_d (Z.of_nat count) else [])).

Definition _hunk (blocks : list Delta) : str :=
  Py.join_empty
    ((λ b, match op b with
           | op_c => LineDiffer._preface (lit " ") (lhs b)
           | op_l => LineDiffer._preface (lit "-") (lhs b)
           | op_r => LineDiffer._preface (lit "+") (rhs b)
           | op_d => LineDiffer._preface (lit "-") (lhs b)
                     ++ LineDiffer._preface (lit "+") (rhs b)
           end) <$> blocks).

Definition hunk_text (blocks : list Delta) : exc str :=
  lrange ← _linerange blocks side_lhs;
  rrange ← _linerange blocks side_rhs;
  Ret (lit "@@ -" ++ lrange ++ lit " +" ++ rrange ++ lit " @@" ++ [nl] ++ _hunk blocks).

Definition hunks (context : nat) (self : differ) : exc (list str) :=
  bs ← Differ.blocks self;
  hs ← ContextDiffer.context_blocks context bs;
  mapM hunk_text hs.

Definition get_diff (context : nat) (self : differ) : exc str :=
  Py.join_empty <$> hunks context self.

End UnifiedDiffer.

Module NormalDiffer.

Definition _linerange (tok : Token) : str :=
  let count := countlines (word tok) in
  Py.fmt_d (idx tok + 1) ++
  (if 1 <? count then lit "," ++ Py.fmt_d (idx tok + Z.of_nat count) else []).

(** The text yielded for one block that is not common. *)
Definition hunk_text (b : Delta) : str :=
  let lines :=
    [_linerange (lhs b)
     ++ (match op b with op_l => lit "d" | op_r => lit "a" | _ => lit "c" end)
     ++ _linerange (rhs b) ++ [nl]] in
  let lines :=
    if Token.truth (lhs b) then
      let lines := lines ++ [LineDiffer._preface (lit "< ") (lhs b)] in
      if Token.truth (rhs b) then lines ++ [lit "---" ++ [nl]] else lines
    else lines in
  let lines :=
    if Token.truth (rhs b) then lines ++ [LineDiffer._preface (lit "> ") (rhs b)]
    else lines in
  Py.join_empty lines.

Definition hunks_of (blocks : list Delta) : list str :=
  hunk_text <$> filter (λ b, op b ≠ op_c) blocks.

Definition hunks (self : differ) : exc (list str) :=
  hunks_of <$> Differ.blocks self.

Definition get_diff (self : differ) : exc str :=
  Py.join_empty <$> hunks self.

End NormalDiffer.

(** The four marker strings of a word diff. *)
Record markers := mkMarkers {
  start_delete : str;
  end_delete : str;
  start_insert : str;
  end_insert : str
}.

Definition default_markers : markers :=
  mkMarkers (lit "[-") (lit "-]") (lit "{+") (lit "+}").

Module WordDiffer.

Definition hunk_text (mk : markers) (b : Delta) : str :=
  match op b with
  | op_c => word (lhs b) ++ sep (lhs b)
  | op_l => Py.join_empty [start_delete mk; word (lhs b); end_delete mk; sep (lhs b)]
  | op_r => Py.join_empty [start_insert mk; word (rhs b); end_insert mk; sep (rhs b)]
  | op_d => Py.join_empty [start_delete mk; word (lhs b); end_delete mk;
                           start_insert mk; word (rhs b); end_insert mk; sep (rhs b)]
  end.

Definition hunks_of (mk : markers) (blocks : list Delta) : list str :=
  hunk_text mk <$> blocks.

Definition hunks (mk : markers) (self : differ) : exc (list str) :=
  hunks_of mk <$> Differ.blocks self.

Definition get_diff (mk : markers) (self : differ) : exc str :=
  Py.join_empty <$> hunks mk self.

End WordDiffer.

(** ** The program's entry points, by style *)

Definition unified_diff (a b : str) (boundary : regex) (context : nat)
    (ignore_case reverse : bool) : exc str :=
  self ← LineDiffer.__init__ a b boundary reverse ignore_case;
  UnifiedDiffer.get_diff context self.

Definition context_diff (a b : str) (boundary : regex) (context : nat)
    (ignore_case reverse : bool) : exc str :=
  self ← LineDiffer.__init__ a b boundary reverse ignore_case;
  ContextDiffer.get_diff context self.

Definition normal_diff (a b : str) (boundary : regex) (ignore_case reverse : bool) : exc str :=
  self ← LineDiffer.__init__ a b boundary reverse ignore_case;
  NormalDiffer.get_diff self.

Definition word_diff (a b : str) (boundary : regex) (mk : markers) (ignore_case : bool)
    : exc str :=
  WordDiffer.get_diff mk (Differ.__init__ a b boundary ignore_case).

(** ** Specification vocabulary *)

(** What [get_matching_blocks] documents about its result, for sequences
    of lengths [la] and [lb], read from the position [(ci, cj)] on: the
    blocks advance on both sides, every block but the last has a positive
    length, the last one is the sentinel [(la, lb, 0)], and no block but
    possibly the sentinel starts exactly where the previous one ends on
    both sides. [fresh] says that no block came before. *)
Fixpoint matching_chain (la lb : nat) (fresh : bool) (ci cj : nat)
    (mbs : list difflib.block) : Prop :=
  match mbs with
  | [] => False
  | (i, j, n) :: rest =>
      ci ≤ i ∧ cj ≤ j ∧
      match rest with
      | [] => i = la ∧ j = lb ∧ n = 0
      | _ :: _ =>
          0 < n ∧ i + n ≤ la ∧ j + n ≤ lb ∧
          (fresh = true ∨ ci < i ∨ cj < j) ∧
          matching_chain la lb false (i + n) (j + n) rest
      end
  end.

(** A block lies inside a region. *)
Definition inside (rg : difflib.region) (x : difflib.block) : Prop :=
  rg.1.1.1 ≤ x.1.1 ∧ x.1.1 + x.2 ≤ rg.1.1.2 ∧
  rg.1.2 ≤ x.1.2 ∧ x.1.2 + x.2 ≤ rg.2.

(** Entries of the previous row of [j2len] are bounded by the distance to
    the lower corner of the region. *)
Definition row_bounded (alo blo i : nat) (j2len : gmap nat nat) : Prop :=
  ∀ j v, j2len !! j = Some v → v + blo ≤ j + 1 ∧ v + alo ≤ i.

(** The state of the region loop of [get_matching_blocks], laid out from
    left to right: regions still to be searched and blocks already found,
    each starting no earlier (on either side) than the one before ends. *)
Inductive item :=
| Pending (rg : difflib.region)
| Found (x : difflib.block).

Definition item_lo (it : item) : nat * nat :=
  match it with
  | Pending rg => (rg.1.1.1, rg.1.2)
  | Found x => (x.1.1, x.1.2)
  end.

Definition item_hi (it : item) : nat * nat :=
  match it with
  | Pending rg => (rg.1.1.2, rg.2)
  | Found x => (x.1.1 + x.2, x.1.2 + x.2)
  end.

Definition item_wf (it : item) : Prop :=
  match it with
  | Pending rg => rg.1.1.1 ≤ rg.1.1.2 ∧ rg.1.2 ≤ rg.2
  | Found x => 0 < x.2
  end.

Definition pt_le (p q : nat * nat) : Prop := p.1 ≤ q.1 ∧ p.2 ≤ q.2.

Fixpoint chain (p q : nat * nat) (fr : list item) : Prop :=
  match fr with
  | [] => pt_le p q
  | it :: fr => pt_le p (item_lo it) ∧ item_wf it ∧ chain (item_hi it) q fr
  end.

Definition pendings (fr : list item) : list difflib.region :=
  omap (λ it, match it with Pending rg => Some rg | Found _ => None end) fr.

Definition founds (fr : list item) : list difflib.block :=
  omap (λ it, match it with Found x => Some x | Pending _ => None end) fr.

(** A bound on the number of rounds the region loop still needs. *)
Definition queue_weight (queue : list difflib.region) : nat :=
  sum_list ((λ rg, 2 * (rg.1.1.2 - rg.1.1.1) + 1) <$> queue).

(** Matching a sequence against itself: the position [i] is visible when
    its element is still listed in [b2j] (it was not purged as popular),
    and [diag_run i] is the number of visible positions in a row that end
    at [i]. *)
Definition visible `{Countable A} (a : list A) (i : nat) : bool :=
  bool_decide (difflib.b2j_get a a i ≠ []).

Fixpoint diag_run `{Countable A} (a : list A) (i : nat) : nat :=
  if visible a i
  then S (match i with 0 => 0 | S i' => diag_run a i' end)
  else 0.

Definition diag_prev `{Countable A} (a : list A) (i : nat) : nat :=
  match i with
  | 0 => 0
  | S i' => diag_run a i'
  end.

(** What is known of the previous row of [j2len] when row [i] of such a
    search starts. *)
Definition prev_row `{Countable A} (a : list A) (i : nat) (j2len : gmap nat nat) : Prop :=
  (∀ j, difflib.j2lenget_pred j2len j ≤ diag_prev a j) ∧
  (∀ j, difflib.j2lenget_pred j2len j ≤ diag_prev a i) ∧
  difflib.j2lenget_pred j2len i = diag_prev a i.

(** Every token sits at the index it carries. *)
Definition tokens_indexed (tokens : list Token) : Prop :=
  ∀ k t, tokens !! k = Some t → idx t = Z.of_nat k.

(** The text of what [Tokenizer.join] returns; nothing for [None]. *)
Definition text_of (t : option Token) : str :=
  match t with
  | Some t => Token.__str__ t
  | None => []
  end.

(** The text of a run of tokens. *)
Definition tokens_text (tokens : list Token) : str :=
  concat (Token.__str__ <$> tokens).

(** The common block [_trim] returns when it trims: [context] pieces of
    the word from the chosen end, under the separator of the block. *)
Definition trimmed (context : nat) (delta : Delta) (dir : direction) : Delta :=
  let pieces := Py.splitlines (word (lhs delta)) in
  let word := match dir with
              | dir_head => Py.join_nl (Py.head_slice pieces context)
              | dir_tail => Py.join_nl (Py.tail_slice pieces context)
              end in
  let adjust_idx := match dir with
                    | dir_head => 0%Z
                    | dir_tail => Z.of_nat (countlines (Token.__str__ (lhs delta)) - context)
                    end in
  mkDelta op_c
    (mkToken word (sep (lhs delta)) (idx (lhs delta) + adjust_idx))
    (mkToken word (sep (rhs delta)) (idx (rhs delta) + adjust_idx)).

(** Common and change blocks alternate. *)
Fixpoint alternating (bs : list Delta) : Prop :=
  match bs with
  | b1 :: rest =>
      match rest with
      | b2 :: _ => (op b1 = op_c ↔ op b2 ≠ op_c) ∧ alternating rest
      | [] => True
      end
  | [] => True
  end.

(** The text of one side of a block sequence. *)
Definition side_text (sd : side) (bs : list Delta) : str :=
  concat ((λ b, Token.__str__ (getattr b sd)) <$> bs).

(** Exchanging the two sides of a block, and of a matching block. *)
Definition swap_op (o : opcode) : opcode :=
  match o with
  | op_l => op_r
  | op_r => op_l
  | o => o
  end.
Definition swap_delta (b : Delta) : Delta := mkDelta (swap_op (op b)) (rhs b) (lhs b).
Definition swap_alignment (bs : list Delta) : list Delta := swap_delta <$> bs.
Definition swap_block (x : difflib.block) : difflib.block := (x.1.2, x.1.1, x.2).

(** A text made of the given lines, each ended by a line feed. *)
Definition lines (l : list string) : str := concat ((λ s, lit s ++ [nl]) <$> l).

(** ** Debugging aid *)




(** ** Further vocabulary *)

(** A block whose label says that a side is missing has the empty token
    there. *)
Definition well_labelled (d : Delta) : Prop :=
  match op d with
  | op_l => word (rhs d) = [] ∧ sep (rhs d) = []
  | op_r => word (lhs d) = [] ∧ sep (lhs d) = []
  | _ => True
  end.

(** In a list of splits, content and separator alternately, no content is
    empty together with the separator after it. *)
Fixpoint pairs_nonempty (splits : list str) : Prop :=
  match splits with
  | c :: rest =>
      match rest with
      | sp :: rest' => (c ≠ [] ∨ sp ≠ []) ∧ pairs_nonempty rest'
      | [] => True
      end
  | [] => True
  end.

(** The end of the last match, or [m_end] if there is none. *)
Definition last_end (m_end : nat) (ms : list Match) : nat :=
  foldl (λ _ m, mend m) m_end ms.


(** A matching block pairs equal elements: [a[i+t] == b[j+t]] for every
    [t] below its length. *)
Definition block_sound {A} (a b : list A) (x : difflib.block) : Prop :=
  ∀ t, t < x.2 → ∃ e, a !! (x.1.1 + t) = Some e ∧ b !! (x.1.2 + t) = Some e.

(** Before row [i] is scanned, the entry of [j2len] at [j] is the length
    of a run of equal elements that ends at [a[i-1]] and [b[j]]. *)
Definition row_sound {A} (a b : list A) (i : nat) (j2len : gmap nat nat) : Prop :=
  ∀ j v, j2len !! j = Some v →
    v ≤ i ∧ v ≤ j + 1 ∧ block_sound a b (i - v, j + 1 - v, v).

(** What makes a block common: it joins equally many tokens of either
    side, whose words, folded as the matcher sees them, are equal one by
    one. *)
Definition common_range (key : Token → str) (xs ys : list Token) (d : Delta) : Prop :=
  ∃ i j n, 0 < n ∧
    Tokenizer.join xs i (i + n) = Ret (Some (lhs d)) ∧
    Tokenizer.join ys j (j + n) = Ret (Some (rhs d)) ∧
    key <$> Py.slice xs i (i + n) = key <$> Py.slice ys j (j + n).

(** * Properties *)

(** ** The splitter *)

Lemma isplit_loop_cons s m_end nextm sepi :
  isplit_loop s m_end (nextm :: sepi) =
    if (mstart nextm =? mend nextm) && (mend nextm =? m_end)
    then isplit_loop s (mend nextm) sepi
    else let '(m, rest) := skip_zero_width nextm sepi in
         isplit_yield s m_end m (isplit_loop s (mend m) rest).
Proof.
  simpl. destruct (_ && _); [done|].
  generalize nextm. induction sepi as [|n sepi IH]; intros m; simpl; [done|].
  destruct (_ && _); [apply IH | done].
Qed.

Lemma slice_then_rest {A} (s : list A) i j :
  i ≤ j → Py.slice s i j ++ Py.slice_from s j = Py.slice_from s i.
Proof.
  intros Hij. unfold Py.slice, Py.slice_from.
  replace (drop j s) with (drop (j - i) (drop i s)).
  - apply take_drop.
  - rewrite drop_drop. f_equal. lia.
Qed.

Lemma slice_to_end {A} (s : list A) i :
  Py.slice s i (length s) = Py.slice_from s i.
Proof.
  unfold Py.slice, Py.slice_from. apply take_ge. rewrite length_drop. lia.
Qed.

Lemma spans_ok_cons n prev m ms :
  spans_ok n prev (m :: ms) = true ↔
  prev ≤ mstart m ∧ mstart m ≤ mend m ∧ mend m ≤ n ∧ spans_ok n (mend m) ms = true.
Proof.
  simpl. rewrite !andb_true_iff, !Nat.leb_le. tauto.
Qed.

(** The nested loop keeps the start of the separator, only consumes
    matches, and leaves a well-formed iterator behind. *)
Lemma skip_zero_width_spec n m sepi m' rest :
  skip_zero_width m sepi = (m', rest) →
  mstart m ≤ mend m → mend m ≤ n → spans_ok n (mend m) sepi = true →
  mstart m' = mstart m ∧ mstart m' ≤ mend m' ∧ mend m' ≤ n ∧
  spans_ok n (mend m') rest = true ∧ length rest ≤ length sepi ∧
  (mstart m < mend m → m' = m).
Proof.
  revert m. induction sepi as [|x sepi IH]; intros m Hskip Hse Hen Hok; simpl in Hskip.
  - by simplify_eq.
  - destruct (_ && _) eqn:Hz; [|by simplify_eq].
    apply andb_true_iff in Hz as [Hz1%Nat.eqb_eq Hz2%Nat.eqb_eq].
    apply spans_ok_cons in Hok as (? & ? & ? & ?).
    destruct (IH x Hskip) as (? & ? & ? & ? & ? & ?); [done..|].
    repeat split; simpl; try done; lia.
Qed.

(** The pieces [isplit] yields, glued together, are the text from the end
    of the current match on. *)
Lemma isplit_loop_concat s sepi : ∀ m_end,
  spans_ok (length s) m_end sepi = true → m_end ≤ length s →
  concat (isplit_loop s m_end sepi) = Py.slice_from s m_end.
Proof.
  remember (length sepi) as k eqn:Hk. revert sepi Hk.
  induction (lt_wf k) as [k _ IH].
  intros [|nextm sepi] Hk m_end Hok Hle.
  - simpl. by rewrite app_nil_r.
  - rewrite isplit_loop_cons.
    apply spans_ok_cons in Hok as (Hps & Hse & Hen & Hok). simpl in Hk.
    destruct (_ && _) eqn:Hz.
    + apply andb_true_iff in Hz as [_ Hz%Nat.eqb_eq].
      rewrite (IH (length sepi)); [by rewrite Hz | lia | done..].
    + destruct (skip_zero_width nextm sepi) as [m rest] eqn:Hskip.
      destruct (skip_zero_width_spec _ _ _ _ _ Hskip Hse Hen Hok)
        as (Hst & Hse' & Hen' & Hok' & Hlen & _).
      unfold isplit_yield. destruct (mstart m =? length s) eqn:Hend.
      * apply Nat.eqb_eq in Hend. rewrite Hend. simpl.
        by rewrite app_nil_r, slice_to_end.
      * simpl. rewrite (IH (length rest)); [|lia|done..].
        rewrite slice_then_rest by done. apply slice_then_rest. lia.
Qed.

(** [isplit] starts and ends with content: it yields an odd number of
    pieces. *)
Lemma isplit_loop_odd s sepi : ∀ m_end,
  length (isplit_loop s m_end sepi) mod 2 = 1.
Proof.
  remember (length sepi) as k eqn:Hk. revert sepi Hk.
  induction (lt_wf k) as [k _ IH].
  intros [|nextm sepi] Hk m_end; [done|].
  rewrite isplit_loop_cons. simpl in Hk.
  destruct (_ && _); [apply (IH (length sepi)); [lia|done]|].
  destruct (skip_zero_width nextm sepi) as [m rest] eqn:Hskip.
  assert (length rest ≤ length sepi) as Hlen.
  { clear -Hskip. revert nextm Hskip.
    induction sepi as [|x sepi IHs]; intros nextm Hskip; simpl in Hskip.
    - by simplify_eq.
    - destruct (_ && _); [|by simplify_eq].
      apply IHs in Hskip. simpl. lia. }
  unfold isplit_yield. destruct (_ =? _); [done|].
  rewrite !length_cons. specialize (IH (length rest) ltac:(lia) rest eq_refl (mend m)).
  lia.
Qed.

(** ** The tokenizer *)

Lemma even_splits_spec (splits : list str) :
  length splits mod 2 = 1 →
  concat (Tokenizer.even_splits splits) = concat splits ∧
  length (Tokenizer.even_splits splits) mod 2 = 0.
Proof.
  intros Hodd. unfold Tokenizer.even_splits.
  destruct splits as [|x l _] using rev_ind; [done|].
  rewrite last_snoc, length_app in *. simpl length in Hodd.
  destruct x as [|c x]; cbn [Py.truthy].
  - rewrite removelast_last, concat_app. cbn [concat]. rewrite !app_nil_r.
    split; [done|lia].
  - rewrite !concat_app, !length_app. cbn [concat length]. rewrite !app_nil_r.
    split; [done|lia].
Qed.

Lemma stride2_cons {A} (x : A) l : stride2 (x :: l) = x :: stride2 (drop 1 l).
Proof. by destruct l. Qed.

(** Words and separators paired up read back as the list of splits. *)
Lemma tokens_of_splits_concat (n : nat) : ∀ (splits : list str) (k : nat),
  length splits = 2 * n →
  concat (Token.__str__ <$>
            map3 mkToken (stride2 splits) (stride2 (drop 1 splits))
                 (Z.of_nat <$> seq k n)) = concat splits.
Proof.
  induction n as [|n IH]; intros splits k Hlen.
  - by destruct splits.
  - destruct splits as [|x [|y l]]; simpl in Hlen; [lia..|].
    rewrite (stride2_cons x). cbn [drop]. rewrite (stride2_cons y).
    cbn [seq fmap list_fmap map3 concat]. rewrite IH by lia.
    unfold Token.__str__. cbn [word sep concat]. by rewrite <- app_assoc.
Qed.

Lemma Tokenizer_reconstruction s boundary :
  matches_ok boundary s = true →
  tokens_text (Tokenizer.__init__ s boundary) = s.
Proof.
  intros Hok. unfold tokens_text, Tokenizer.__init__, isplit.
  destruct (even_splits_spec (isplit_loop s 0 (finditer boundary s)))
    as [Hcat Heven]; [apply isplit_loop_odd|].
  set (splits := Tokenizer.even_splits _) in *.
  rewrite (tokens_of_splits_concat (length splits / 2)).
  - rewrite Hcat, isplit_loop_concat; [done..|lia].
  - pose proof (Nat.div_mod_eq (length splits) 2). lia.
Qed.

Lemma map3_indexed xs : ∀ ys n start k t,
  map3 mkToken xs ys (Z.of_nat <$> seq start n) !! k = Some t →
  idx t = Z.of_nat (start + k).
Proof.
  induction xs as [|x xs IH]; intros [|y ys] [|n] start k t; simpl; try done.
  destruct k as [|k]; simpl.
  - intros [= <-]. simpl. f_equal. lia.
  - intros Hk. apply IH in Hk. rewrite Hk. f_equal. lia.
Qed.

Lemma Tokenizer_indexed s boundary : tokens_indexed (Tokenizer.__init__ s boundary).
Proof. intros k t Hk. by apply map3_indexed in Hk. Qed.

(** The empty text has no token, whatever the pattern matches in it. *)
Lemma isplit_loop_empty sepi :
  spans_ok 0 0 sepi = true → isplit_loop [] 0 sepi = [[]].
Proof.
  induction sepi as [|m sepi IH]; [done|].
  intros (Hs & He & Hn & Hok)%spans_ok_cons.
  assert (mstart m = 0 ∧ mend m = 0) as [Hs0 He0] by lia.
  rewrite He0 in Hok. simpl. rewrite Hs0, He0. simpl. by apply IH.
Qed.

Lemma Tokenizer_empty boundary :
  matches_ok boundary [] = true → Tokenizer.__init__ [] boundary = [].
Proof.
  intros Hok. unfold Tokenizer.__init__, isplit. by rewrite isplit_loop_empty.
Qed.

Lemma slice_empty {A} (s : list A) i : Py.slice s i i = [].
Proof. unfold Py.slice. by rewrite Nat.sub_diag. Qed.

Lemma slice_snoc {A} (s : list A) i j x :
  i ≤ j → s !! j = Some x → Py.slice s i (S j) = Py.slice s i j ++ [x].
Proof.
  intros Hij Hx. unfold Py.slice. replace (S j - i) with (S (j - i)) by lia.
  apply take_S_r. rewrite lookup_drop. by replace (i + (j - i)) with j by lia.
Qed.

Lemma slice_slice {A} (s : list A) i j k :
  i ≤ j → j ≤ k → Py.slice s i j ++ Py.slice s j k = Py.slice s i k.
Proof.
  intros Hij Hjk. unfold Py.slice.
  replace (drop j s) with (drop (j - i) (drop i s)) by (rewrite drop_drop; f_equal; lia).
  replace (k - i) with ((j - i) + (k - j)) by lia.
  by rewrite take_take_drop.
Qed.

Lemma tokens_text_app t1 t2 : tokens_text (t1 ++ t2) = tokens_text t1 ++ tokens_text t2.
Proof. unfold tokens_text. by rewrite fmap_app, concat_app. Qed.

(** [join] on a valid range never fails; it returns [None] exactly for an
    empty range, and otherwise a token that reads as the tokens of the
    range and carries the index of the first. *)
Lemma join_spec tokens first limit :
  tokens_indexed tokens → first ≤ limit → limit ≤ length tokens →
  ∃ r, Tokenizer.join tokens first limit = Ret r ∧
       text_of r = tokens_text (Py.slice tokens first limit) ∧
       (r = None ↔ first = limit) ∧
       (∀ t, r = Some t → idx t = Z.of_nat first).
Proof.
  intros Hidx Hfl Hll. unfold Tokenizer.join.
  assert ((first <=? length tokens) = true) as -> by (apply Nat.leb_le; lia).
  assert (((first <=? limit) && (limit <=? length tokens)) = true) as ->.
  { apply andb_true_iff. split; apply Nat.leb_le; lia. }
  simpl. destruct (limit <=? first) eqn:Hempty.
  { apply Nat.leb_le in Hempty. assert (limit = first) as -> by lia.
    exists None. by rewrite slice_empty. }
  apply Nat.leb_gt in Hempty.
  destruct (lookup_lt_is_Some_2 tokens first) as [tf Htf]; [lia|].
  destruct (lookup_lt_is_Some_2 tokens (limit - 1)) as [tl Htl]; [lia|].
  unfold getitem. rewrite Htf, Htl. simpl.
  destruct (limit - 1 =? first) eqn:Hone.
  - apply Nat.eqb_eq in Hone. exists (Some tf). split_and!; [done| |split; [done|lia]|].
    + replace limit with (S first) by lia.
      rewrite (slice_snoc _ _ _ tf), slice_empty by done.
      unfold tokens_text. simpl. by rewrite app_nil_r.
    + intros t [= <-]. by apply Hidx.
  - apply Nat.eqb_neq in Hone. rewrite (Hidx _ _ Htf).
    rewrite bool_decide_eq_true_2 by done. simpl.
    eexists. split_and!; [done| |split; [done|lia]|by intros t [= <-]].
    replace limit with (S (limit - 1)) at 2 by lia.
    rewrite (slice_snoc _ _ _ tl), tokens_text_app by (done || lia).
    unfold tokens_text, text_of, Token.__str__, Py.join_empty. simpl.
    by rewrite app_nil_r, app_assoc.
Qed.

(** In particular, for a range that is not empty the result is a token. *)
Lemma join_range_not_None tokens first limit :
  tokens_indexed tokens → first < limit → limit ≤ length tokens →
  ∃ t, Tokenizer.join tokens first limit = Ret (Some t) ∧
       Token.__str__ t = tokens_text (Py.slice tokens first limit) ∧
       idx t = Z.of_nat first.
Proof.
  intros Hidx Hfl Hll.
  destruct (join_spec tokens first limit) as (r & Hj & Ht & Hn & Hi); [done|lia|done|].
  destruct r as [t|]; [|destruct Hn as [Hn _]; specialize (Hn eq_refl); lia].
  exists t. eauto.
Qed.

(** ** The sequence matcher *)

Section matcher_facts.
Context `{Countable A}.
Variables a b : list A.

Lemma scan_row_inside alo ahi blo bhi i j2len js : ∀ newj2len best,
  alo ≤ i < ahi →
  row_bounded alo blo i j2len →
  row_bounded alo blo (S i) newj2len →
  inside (alo, ahi, blo, bhi) best →
  row_bounded alo blo (S i) (difflib.scan_row i blo bhi j2len js newj2len best).1 ∧
  inside (alo, ahi, blo, bhi) (difflib.scan_row i blo bhi j2len js newj2len best).2.
Proof.
  induction js as [|j js IH]; intros newj2len best Hi Hprev Hnew Hbest; simpl; [done|].
  destruct (j <? blo) eqn:Hjlo; [by apply IH|].
  destruct (bhi <=? j) eqn:Hjhi; [done|].
  apply Nat.ltb_ge in Hjlo. apply Nat.leb_gt in Hjhi.
  assert (difflib.j2lenget_pred j2len j + blo ≤ j ∧
          difflib.j2lenget_pred j2len j + alo ≤ i) as [Hk1 Hk2].
  { unfold difflib.j2lenget_pred. destruct j as [|j']; [lia|].
    destruct (j2len !! j') as [v|] eqn:Hv; simpl; [|lia].
    apply Hprev in Hv. lia. }
  apply IH; [done..| |].
  - intros j0 v. rewrite lookup_insert. case_decide; [|by apply Hnew].
    intros [= <-]. lia.
  - destruct (best.2 <? _); [|done].
    unfold inside in *. simpl in *. lia.
Qed.

Lemma scan_rows_inside alo ahi blo bhi :
  alo ≤ ahi → blo ≤ bhi →
  inside (alo, ahi, blo, bhi) (difflib.scan_rows a b alo ahi blo bhi).
Proof.
  intros Ha Hb. unfold difflib.scan_rows.
  assert (∀ n start (st : gmap nat nat * difflib.block),
    alo ≤ start → start + n ≤ ahi →
    row_bounded alo blo start st.1 → inside (alo, ahi, blo, bhi) st.2 →
    inside (alo, ahi, blo, bhi)
      (foldl (λ st i, difflib.scan_row i blo bhi st.1 (difflib.b2j_get a b i) ∅ st.2)
             st (seq start n)).2) as Hfold.
  { induction n as [|n IH]; intros start st Hs Hn Hrow Hin; simpl; [done|].
    destruct (scan_row_inside alo ahi blo bhi start st.1 (difflib.b2j_get a b start)
                ∅ st.2) as [Hrow' Hin']; [lia|done| |done|].
    { intros j v. by rewrite lookup_empty. }
    apply IH; [lia..|done|done]. }
  apply Hfold; [lia..| |].
  - intros j v. simpl. by rewrite lookup_empty.
  - unfold inside. simpl. lia.
Qed.

Lemma extend_left_inside want alo ahi blo bhi : ∀ besti bestj bestsize,
  inside (alo, ahi, blo, bhi) (besti, bestj, bestsize) →
  inside (alo, ahi, blo, bhi) (difflib.extend_left a b want alo blo besti bestj bestsize).
Proof.
  induction besti as [|i' IH]; intros bestj bestsize Hin; simpl; [done|].
  destruct bestj as [|j']; [done|].
  destruct (_ && _) eqn:Hc; [|done].
  apply andb_true_iff in Hc as [[Hc1%Nat.ltb_lt Hc2%Nat.ltb_lt]%andb_true_iff _].
  apply IH. unfold inside in *. simpl in *. lia.
Qed.

Lemma extend_right_inside want alo ahi blo bhi besti bestj : ∀ fuel bestsize,
  inside (alo, ahi, blo, bhi) (besti, bestj, bestsize) →
  inside (alo, ahi, blo, bhi)
    (besti, bestj, difflib.extend_right a b want ahi bhi besti bestj fuel bestsize).
Proof.
  induction fuel as [|fuel IH]; intros bestsize Hin; simpl; [done|].
  destruct (_ && _) eqn:Hc; [|done].
  apply andb_true_iff in Hc as [[Hc1%Nat.ltb_lt Hc2%Nat.ltb_lt]%andb_true_iff _].
  apply IH. unfold inside in *. simpl in *. lia.
Qed.

(** The fuel of [extend_right] never cuts the loop short: it stops by
    itself once [besti + bestsize] reaches [ahi], so more fuel changes
    nothing. *)
Lemma extend_right_fuel want ahi bhi besti bestj : ∀ fuel extra bestsize,
  ahi ≤ besti + bestsize + fuel →
  difflib.extend_right a b want ahi bhi besti bestj (fuel + extra) bestsize =
  difflib.extend_right a b want ahi bhi besti bestj fuel bestsize.
Proof.
  induction fuel as [|fuel IH]; intros extra bestsize Hfuel.
  - destruct extra as [|extra]; [done|]. simpl.
    by assert ((besti + bestsize <? ahi) = false) as -> by (apply Nat.ltb_ge; lia).
  - simpl. destruct (_ && _); [|done]. apply IH. lia.
Qed.

Lemma extend_inside want alo ahi blo bhi best :
  inside (alo, ahi, blo, bhi) best →
  inside (alo, ahi, blo, bhi) (difflib.extend a b want alo ahi blo bhi best).
Proof.
  intros Hin. unfold difflib.extend. destruct best as [[bi bj] bs].
  pose proof (extend_left_inside want alo ahi blo bhi bi bj bs Hin) as Hl.
  simpl. destruct (difflib.extend_left _ _ _ _ _ _ _ _) as [[i j] k].
  by apply extend_right_inside.
Qed.

(** The longest match lies inside the region it was searched in. *)
Lemma find_longest_match_inside alo ahi blo bhi :
  alo ≤ ahi → blo ≤ bhi →
  inside (alo, ahi, blo, bhi) (difflib.find_longest_match a b alo ahi blo bhi).
Proof.
  intros Ha Hb. unfold difflib.find_longest_match.
  by apply extend_inside, extend_inside, scan_rows_inside.
Qed.

End matcher_facts.

(** *** The region loop *)

Lemma chain_le p q fr : chain p q fr → pt_le p q.
Proof.
  revert p. induction fr as [|it fr IH]; intros p; simpl; [done|].
  intros (Hp & Hwf & Hc). apply IH in Hc. unfold pt_le in *.
  destruct it as [[[[alo ahi] blo] bhi]|[[i j] k]]; simpl in *; lia.
Qed.

Lemma chain_weaken p p' q fr : pt_le p' p → chain p q fr → chain p' q fr.
Proof.
  unfold pt_le. destruct fr as [|it fr]; simpl; unfold pt_le; intros; intuition lia.
Qed.

Lemma chain_app p m q f1 f2 : chain p m f1 → chain m q f2 → chain p q (f1 ++ f2).
Proof.
  revert p. induction f1 as [|it f1 IH]; intros p; simpl.
  - intros Hp Hc. by eapply chain_weaken.
  - intros (Hp & Hwf & Hc) Hc2. eauto.
Qed.

Lemma chain_split p q f1 it f2 :
  chain p q (f1 ++ it :: f2) →
  chain p (item_lo it) f1 ∧ item_wf it ∧ chain (item_hi it) q f2.
Proof.
  revert p. induction f1 as [|it1 f1 IH]; intros p; simpl.
  - tauto.
  - intros (Hp & Hwf & Hc). apply IH in Hc. tauto.
Qed.

Lemma pendings_split rg fr :
  rg ∈ pendings fr → ∃ f1 f2, fr = f1 ++ Pending rg :: f2.
Proof.
  unfold pendings. rewrite list_elem_of_omap. intros (it & Hin & Hit).
  destruct it as [rg'|]; [|done]. simplify_eq.
  by apply list_elem_of_split.
Qed.

Lemma pendings_app f1 f2 : pendings (f1 ++ f2) = pendings f1 ++ pendings f2.
Proof. apply omap_app. Qed.

Lemma founds_app f1 f2 : founds (f1 ++ f2) = founds f1 ++ founds f2.
Proof. apply omap_app. Qed.

Lemma queue_weight_cons alo ahi blo bhi queue :
  queue_weight ((alo, ahi, blo, bhi) :: queue) = 2 * (ahi - alo) + 1 + queue_weight queue.
Proof. done. Qed.

Lemma queue_weight_nil queue : queue_weight queue = 0 → queue = [].
Proof.
  destruct queue as [|[[[??]?]?] ?]; [done|]. rewrite queue_weight_cons. lia.
Qed.

Section region_loop.
Context `{Countable A}.
Variables a b : list A.

(** With enough fuel the loop empties the queue, and the blocks it has
    collected are, up to their order, a chain of non-empty blocks. *)
Lemma match_regions_spec q : ∀ fuel queue acc fr,
  chain (0, 0) q fr →
  queue ≡ₚ pendings fr → acc ≡ₚ founds fr →
  queue_weight queue ≤ fuel →
  ∃ fr', chain (0, 0) q fr' ∧ pendings fr' = [] ∧
         (difflib.match_regions a b fuel queue acc).1 = [] ∧
         (difflib.match_regions a b fuel queue acc).2 ≡ₚ founds fr'.
Proof.
  induction fuel as [|fuel IH]; intros queue acc fr Hch Hq Hacc Hw.
  { assert (queue = []) as -> by (apply queue_weight_nil; lia).
    exists fr. split_and!; [done| |done..].
    by apply Permutation_nil in Hq. }
  destruct queue as [|rg queue].
  { exists fr. split_and!; [done| |done..].
    by apply Permutation_nil in Hq. }
  destruct (pendings_split rg fr) as (f1 & f2 & ->).
  { rewrite <- Hq. left. }
  apply chain_split in Hch as (Hc1 & Hwf & Hc2).
  rewrite pendings_app in Hq. rewrite founds_app in Hacc.
  cbn [pendings founds omap list_omap] in Hq, Hacc.
  fold (pendings f2) in Hq. fold (founds f2) in Hacc.
  apply Permutation_cons_app_inv in Hq.
  destruct rg as [[[alo ahi] blo] bhi]. simpl in Hwf, Hc1, Hc2.
  pose proof (find_longest_match_inside a b alo ahi blo bhi (proj1 Hwf) (proj2 Hwf)) as Hin.
  cbn [difflib.match_regions].
  destruct (difflib.find_longest_match a b alo ahi blo bhi) as [[i j] k].
  unfold inside in Hin. simpl in Hin.
  rewrite queue_weight_cons in Hw.
  destruct (0 <? k) eqn:Hk.
  - apply Nat.ltb_lt in Hk.
    destruct ((alo <? i) && (blo <? j)) eqn:Hl;
      destruct ((i + k <? ahi) && (j + k <? bhi)) eqn:Hr.
    1: apply (IH _ _ (f1 ++ [Pending (alo, i, blo, j); Found (i, j, k);
                             Pending (i + k, ahi, j + k, bhi)] ++ f2)).
    5: apply (IH _ _ (f1 ++ [Pending (alo, i, blo, j); Found (i, j, k)] ++ f2)).
    9: apply (IH _ _ (f1 ++ [Found (i, j, k); Pending (i + k, ahi, j + k, bhi)] ++ f2)).
    13: apply (IH _ _ (f1 ++ [Found (i, j, k)] ++ f2)).
    all: try (eapply chain_app; [done|]; simpl; unfold pt_le; simpl;
              split_and!; try lia;
              (eapply chain_weaken; [|done]); unfold pt_le; simpl; lia).
    all: try (rewrite !pendings_app; cbn [pendings omap list_omap app];
              fold (pendings f2); rewrite Hq; solve_Permutation).
    all: try (rewrite !founds_app; cbn [founds omap list_omap app];
              fold (founds f2); rewrite Hacc; solve_Permutation).
    all: apply andb_true_iff in Hl as [?%Nat.ltb_lt ?%Nat.ltb_lt] || clear Hl.
    all: apply andb_true_iff in Hr as [?%Nat.ltb_lt ?%Nat.ltb_lt] || clear Hr.
    all: rewrite ?queue_weight_cons; lia.
  - apply (IH _ _ (f1 ++ f2)).
    + eapply chain_app; [done|]. eapply chain_weaken; [|done]. unfold pt_le. simpl. lia.
    + by rewrite pendings_app.
    + by rewrite founds_app.
    + lia.
Qed.

End region_loop.

(** *** Sorting and merging the blocks *)

Global Instance block_le_total : Total difflib.block_le.
Proof. intros [[??]?] [[??]?]. unfold difflib.block_le. simpl. lia. Qed.

Global Instance block_le_trans : Transitive difflib.block_le.
Proof. intros [[??]?] [[??]?] [[??]?]. unfold difflib.block_le. simpl. lia. Qed.

Global Instance block_le_antisymm : AntiSymm (=) difflib.block_le.
Proof.
  intros [[i j] k] [[i' j'] k']. unfold difflib.block_le. simpl. intros ??.
  assert (i = i' ∧ j = j' ∧ k = k') as (-> & -> & ->) by lia. done.
Qed.

Lemma no_pendings_all_found fr : pendings fr = [] → fr = Found <$> founds fr.
Proof.
  induction fr as [|[rg|x] fr IH]; simpl; [done..|].
  intros Hp. f_equal. by apply IH.
Qed.

Lemma chain_found_sorted p q xs : chain p q (Found <$> xs) → Sorted difflib.block_le xs.
Proof.
  revert p. induction xs as [|x xs IH]; intros p; simpl; [constructor|].
  intros (Hp & Hk & Hc). constructor; [by eapply IH|].
  destruct xs as [|y xs]; constructor. simpl in Hc. destruct Hc as [Hxy _].
  unfold pt_le in Hxy. simpl in *. unfold difflib.block_le. lia.
Qed.

Lemma matching_chain_cons la lb fresh ci cj i j n rest :
  rest ≠ [] →
  matching_chain la lb fresh ci cj ((i, j, n) :: rest) ↔
  ci ≤ i ∧ cj ≤ j ∧ 0 < n ∧ i + n ≤ la ∧ j + n ≤ lb ∧
  (fresh = true ∨ ci < i ∨ cj < j) ∧ matching_chain la lb false (i + n) (j + n) rest.
Proof. destruct rest; [done|]. simpl. tauto. Qed.

(** Merging adjacent blocks of a chain, then adding the sentinel, gives
    what [get_matching_blocks] documents. *)
Lemma merge_adjacent_chain la lb ch : ∀ i1 j1 k1 fresh ci cj,
  chain (i1 + k1, j1 + k1) (la, lb) (Found <$> ch) →
  ci ≤ i1 → cj ≤ j1 →
  fresh = true ∨ (0 < k1 ∧ (ci < i1 ∨ cj < j1)) →
  matching_chain la lb fresh ci cj (difflib.merge_adjacent i1 j1 k1 ch ++ [(la, lb, 0)]).
Proof.
  induction ch as [|[[i2 j2] k2] ch IH]; intros i1 j1 k1 fresh ci cj Hch Hci Hcj Hfr.
  - simpl in *. unfold pt_le in Hch. simpl in Hch.
    destruct (0 <? k1) eqn:Hk1; simpl; [|lia].
    apply Nat.ltb_lt in Hk1.
    assert (fresh = true ∨ ci < i1 ∨ cj < j1) by (destruct Hfr as [->|?]; [by left | right; lia]).
    split_and!; done || lia.
  - simpl in Hch. destruct Hch as (Hp & Hk2 & Hch). unfold pt_le in Hp. simpl in Hp, Hk2.
    cbn [difflib.merge_adjacent].
    destruct ((i1 + k1 =? i2) && (j1 + k1 =? j2)) eqn:Hadj.
    + apply andb_true_iff in Hadj as [<-%Nat.eqb_eq <-%Nat.eqb_eq].
      apply IH; [|done..|].
      * by rewrite !Nat.add_assoc.
      * destruct Hfr as [->|?]; [by left | right; lia].
    + assert (i1 + k1 < i2 ∨ j1 + k1 < j2) as Hgap.
      { apply andb_false_iff in Hadj as [?%Nat.eqb_neq|?%Nat.eqb_neq]; lia. }
      destruct (0 <? k1) eqn:Hk1.
      * apply Nat.ltb_lt in Hk1. cbn [app].
        apply matching_chain_cons; [by destruct (difflib.merge_adjacent _ _ _ _)|].
        apply chain_le in Hch as Hle. unfold pt_le in Hle. simpl in Hle.
        split_and!; [lia..| |].
        { destruct Hfr as [->|?]; [by left | right; lia]. }
        apply IH; [done|lia|lia|]. right. lia.
      * apply Nat.ltb_ge in Hk1. cbn [app].
        destruct Hfr as [->|?]; [|lia].
        apply IH; [done|lia|lia|by left].
Qed.

Section matching_blocks.
Context `{Countable A}.
Variables a b : list A.

(** The blocks the region loop collects, once sorted, form a chain. *)
Lemma sorted_regions_chain :
  ∃ ch, merge_sort difflib.block_le
          (difflib.match_regions a b (2 * length a + 1) [(0, length a, 0, length b)] []).2 = ch
        ∧ chain (0, 0) (length a, length b) (Found <$> ch).
Proof.
  destruct (match_regions_spec a b (length a, length b) (2 * length a + 1)
              [(0, length a, 0, length b)] []
              [Pending (0, length a, 0, length b)])
    as (fr & Hch & Hnp & _ & Hperm); [| done | done | |].
  { simpl. unfold pt_le. simpl. lia. }
  { rewrite queue_weight_cons. unfold queue_weight. simpl. lia. }
  eexists. split; [done|].
  rewrite (no_pendings_all_found fr Hnp) in Hch.
  replace (merge_sort _ _) with (founds fr); [done|].
  apply (Sorted_unique difflib.block_le).
  - by eapply chain_found_sorted.
  - apply Sorted_merge_sort, _.
  - by rewrite merge_sort_Permutation, Hperm.
Qed.

(** [get_matching_blocks] keeps the promises of its documentation. *)
Lemma get_matching_blocks_chain :
  matching_chain (length a) (length b) true 0 0 (difflib.get_matching_blocks a b).
Proof.
  unfold difflib.get_matching_blocks.
  destruct sorted_regions_chain as (ch & -> & Hch).
  apply merge_adjacent_chain; [done|lia|lia|by left].
Qed.

(** The region loop is never cut short by its fuel. *)
Lemma match_regions_completes :
  (difflib.match_regions a b (2 * length a + 1) [(0, length a, 0, length b)] []).1 = [].
Proof.
  destruct (match_regions_spec a b (length a, length b) (2 * length a + 1)
              [(0, length a, 0, length b)] []
              [Pending (0, length a, 0, length b)])
    as (fr & _ & _ & Hdone & _); [| done | done | | done].
  { simpl. unfold pt_le. simpl. lia. }
  { rewrite queue_weight_cons. unfold queue_weight. simpl. lia. }
Qed.

End matching_blocks.

(** ** The aligner *)

Lemma side_text_app sd bs1 bs2 :
  side_text sd (bs1 ++ bs2) = side_text sd bs1 ++ side_text sd bs2.
Proof. unfold side_text. by rewrite fmap_app, concat_app. Qed.

Lemma alternating_cons b bs :
  alternating (b :: bs) ↔
  (∀ b2, head bs = Some b2 → (op b = op_c ↔ op b2 ≠ op_c)) ∧ alternating bs.
Proof.
  destruct bs as [|b2 bs]; simpl.
  - split; [done|tauto].
  - split.
    + intros [Hop Halt]. split; [|done]. by intros ? [= <-].
    + intros [Hop Halt]. split; [|done]. by apply Hop.
Qed.

(** The change block reads as what [join] returned on either side, is
    never common, and is missing exactly when both sides are. *)
Lemma change_block_spec lhs rhs i j :
  side_text side_lhs (Differ.change_block lhs rhs i j) = text_of lhs ∧
  side_text side_rhs (Differ.change_block lhs rhs i j) = text_of rhs ∧
  (∀ b, b ∈ Differ.change_block lhs rhs i j → op b ≠ op_c) ∧
  ((lhs = None ∧ rhs = None) → Differ.change_block lhs rhs i j = []) ∧
  ((lhs ≠ None ∨ rhs ≠ None) → ∃ b, Differ.change_block lhs rhs i j = [b]).
Proof.
  unfold Differ.change_block, side_text.
  destruct lhs as [tl|], rhs as [tr|]; simpl; rewrite ?app_nil_r;
    (split_and!; [done|done| | |]).
  all: try (intros b Hb; try apply list_elem_of_singleton in Hb as ->; try done;
            by apply elem_of_nil in Hb).
  all: try (intros _; by eexists).
  all: try by intros [??].
  intros [?|?]; done.
Qed.

Section blocks.
Variables atoks btoks : list Token.
Hypothesis Hia : tokens_indexed atoks.
Hypothesis Hib : tokens_indexed btoks.

(** Over matching blocks that keep the matcher's promises, [blocks]
    raises nothing, its blocks read as the remaining tokens on either
    side, and common and change blocks alternate. *)
Lemma blocks_from_spec mbs : ∀ fresh ci cj,
  matching_chain (length atoks) (length btoks) fresh ci cj mbs →
  ∃ bs, Differ.blocks_from atoks btoks ci cj mbs = Ret bs ∧
        side_text side_lhs bs = tokens_text (drop ci atoks) ∧
        side_text side_rhs bs = tokens_text (drop cj btoks) ∧
        alternating bs ∧
        (fresh = false → ∀ b0, head bs = Some b0 → op b0 ≠ op_c).
Proof.
  induction mbs as [|[[i j] n] rest IH]; intros fresh ci cj Hch; [done|].
  cbn [Differ.blocks_from].
  assert (ci ≤ i ∧ cj ≤ j ∧ i + n ≤ length atoks ∧ j + n ≤ length btoks) as (Hci & Hcj & Hia' & Hib').
  { destruct rest; simpl in Hch; lia. }
  destruct (join_spec atoks ci i) as (lo & -> & Hlt & Hln & _); [done|lia|lia|].
  destruct (join_spec btoks cj j) as (ro & -> & Hrt & Hrn & _); [done|lia|lia|].
  destruct (change_block_spec lo ro i j) as (Hcl & Hcr & Hcop & Hcnil & Hcone).
  cbn [mbind exc_bind].
  destruct rest as [|m' rest'].
  - destruct Hch as (_ & _ & -> & -> & ->). simpl.
    exists (Differ.change_block lo ro (length atoks) (length btoks) ++ []).
    rewrite app_nil_r. rewrite Hcl, Hcr, Hlt, Hrt, !slice_to_end.
    split_and!; [done..| |].
    + destruct lo, ro; simpl; done.
    + intros _ b0 Hb0. apply Hcop. by apply head_Some_elem_of.
  - apply matching_chain_cons in Hch as (_ & _ & Hn & _ & _ & Hfresh & Hch); [|done].
    destruct (IH false (i + n) (j + n) Hch) as (bs & -> & Hbl & Hbr & Hbalt & Hbhd).
    assert ((0 <? n) = true) as -> by by apply Nat.ltb_lt.
    unfold Differ.common_block.
    destruct (join_range_not_None atoks i (i + n)) as (tl & -> & Htl & _); [done|lia|lia|].
    destruct (join_range_not_None btoks j (j + n)) as (tr & -> & Htr & _); [done|lia|lia|].
    cbn [mbind exc_bind].
    eexists. split; [done|].
    rewrite !side_text_app, Hcl, Hcr, Hbl, Hbr, Hlt, Hrt.
    unfold side_text. cbn [fmap list_fmap concat getattr lhs rhs app].
    rewrite !app_nil_r, Htl, Htr.
    assert (alternating (mkDelta op_c tl tr :: bs)) as Halt.
    { apply alternating_cons. split; [|done].
      intros b2 Hb2. split; [intros _; by apply Hbhd|done]. }
    split_and!.
    + rewrite <- !tokens_text_app. f_equal.
      rewrite app_assoc, slice_slice by lia. apply slice_then_rest. lia.
    + rewrite <- !tokens_text_app. f_equal.
      rewrite app_assoc, slice_slice by lia. apply slice_then_rest. lia.
    + destruct (decide (lo = None ∧ ro = None)) as [Hnone|Hsome].
      * by rewrite Hcnil.
      * destruct Hcone as [b0 Hb0].
        { destruct lo, ro; [by left..| by right | by destruct Hsome]. }
        rewrite Hb0. simpl. split; [|done].
        assert (op b0 ≠ op_c) by (apply Hcop; rewrite Hb0; by left).
        split; [done|]. by intros [].
    + intros -> b0 Hb0.
      destruct Hcone as [b1 Hb1].
      { destruct Hfresh as [?|Hgap]; [done|].
        destruct (decide (lo = None)) as [Hl|?]; [|by left].
        destruct (decide (ro = None)) as [Hr|?]; [|by right].
        apply Hln in Hl. apply Hrn in Hr. lia. }
      rewrite Hb1 in Hb0. simpl in Hb0. simplify_eq.
      apply Hcop. rewrite Hb1. by left.
Qed.

End blocks.

Lemma Differ_blocks_spec a b boundary ignore_case :
  ∃ bs, Differ.blocks (Differ.__init__ a b boundary ignore_case) = Ret bs ∧
        side_text side_lhs bs = tokens_text (Tokenizer.__init__ a boundary) ∧
        side_text side_rhs bs = tokens_text (Tokenizer.__init__ b boundary) ∧
        alternating bs.
Proof.
  unfold Differ.blocks, Differ.__init__. cbn [atoks btoks seqm_a seqm_b].
  set (ta := Tokenizer.__init__ a boundary). set (tb := Tokenizer.__init__ b boundary).
  set (key := λ t : Token, (if ignore_case then Py.lower else id) (word t)).
  pose proof (get_matching_blocks_chain (key <$> ta) (key <$> tb)) as Hch.
  rewrite !length_fmap in Hch.
  destruct (blocks_from_spec ta tb (Tokenizer_indexed _ _) (Tokenizer_indexed _ _)
              _ _ _ _ Hch) as (bs & Hbs & Hl & Hr & Halt & _).
  exists bs. by rewrite Hbs, Hl, Hr.
Qed.

(** ** Hunk assembly *)

Lemma _trim_common context delta dir inner :
  op delta = op_c → ∃ r, ContextDiffer._trim context delta dir inner = Ret r.
Proof.
  intros Hop. unfold ContextDiffer._trim. rewrite bool_decide_eq_true_2 by done.
  cbn [assert mbind exc_bind]. destruct (_ <=? _); by eexists.
Qed.

Lemma _trim_change context delta dir inner :
  op delta ≠ op_c → ContextDiffer._trim context delta dir inner = Raise AssertionError.
Proof.
  intros Hop. unfold ContextDiffer._trim. by rewrite bool_decide_eq_false_2.
Qed.

Lemma _trim_short context delta dir (inner : bool) :
  op delta = op_c →
  countlines (Token.__str__ (lhs delta)) ≤ (if inner then context * 2 else context) →
  ContextDiffer._trim context delta dir inner = Ret (delta, false).
Proof.
  intros Hop Hlines. unfold ContextDiffer._trim. rewrite bool_decide_eq_true_2 by done.
  cbn [assert mbind exc_bind]. by apply Nat.leb_le in Hlines as ->.
Qed.

Lemma _trim_long context delta dir (inner : bool) :
  op delta = op_c →
  (if inner then context * 2 else context) < countlines (Token.__str__ (lhs delta)) →
  ContextDiffer._trim context delta dir inner = Ret (trimmed context delta dir, true).
Proof.
  intros Hop Hlines. unfold ContextDiffer._trim. rewrite bool_decide_eq_true_2 by done.
  cbn [assert mbind exc_bind]. apply Nat.leb_gt in Hlines as ->. by destruct dir.
Qed.

(** A common block of at most [2 * context] lines between two changes is
    kept whole, and the hunk goes on with the next change. *)
Lemma collect_short_gap context blocks delta after next_delta rest :
  op after = op_c →
  countlines (Token.__str__ (lhs after)) ≤ 2 * context →
  ContextDiffer.collect context blocks delta (after :: next_delta :: rest) =
  ContextDiffer.collect context (blocks ++ [delta; after]) next_delta rest.
Proof.
  intros Hop Hlines. cbn [ContextDiffer.collect].
  by rewrite (_trim_short context after dir_head true) by (done || (cbv beta iota; lia)).
Qed.

(** A longer one ends the hunk, trimmed at its head, and its tail opens
    the next hunk. *)
Lemma collect_long_gap context blocks delta after next_delta rest :
  op after = op_c →
  2 * context < countlines (Token.__str__ (lhs after)) →
  ContextDiffer.collect context blocks delta (after :: next_delta :: rest) =
  cons (blocks ++ [delta; trimmed context after dir_head]) <$>
    ContextDiffer.collect context [trimmed context after dir_tail] next_delta rest.
Proof.
  intros Hop Hlines. cbn [ContextDiffer.collect].
  rewrite !_trim_long by (done || (cbv beta iota; lia)). cbn [mbind exc_bind fst snd].
  by destruct (ContextDiffer.collect _ _ _ _).
Qed.

(** The hunk under construction is never dropped: it is the beginning of
    the first hunk [collect] returns. *)
Lemma collect_first_hunk context n : ∀ blocki blocks delta hs,
  length blocki ≤ n →
  ContextDiffer.collect context blocks delta blocki = Ret hs →
  ∃ h tl, hs = h :: tl ∧ (blocks ++ [delta]) `prefix_of` h.
Proof.
  induction n as [|n IH]; intros blocki blocks delta hs Hlen.
  { destruct blocki; [|simpl in Hlen; lia]. intros [= <-]. by eexists _, _. }
  destruct blocki as [|after [|next_delta blocki]]; cbn [ContextDiffer.collect].
  - intros [= <-]. by eexists _, _.
  - destruct (ContextDiffer._trim context after dir_head false) as [r|]; [|done].
    intros [= <-]. eexists _, _. split; [done|]. exists [r.1]. by rewrite <- app_assoc.
  - destruct (ContextDiffer._trim context after dir_head true) as [r|]; [|done].
    cbn [mbind exc_bind]. destruct (r.2 : bool).
    + destruct (ContextDiffer._trim context after dir_tail false) as [r'|]; [|done].
      cbn [mbind exc_bind].
      destruct (ContextDiffer.collect context [r'.1] next_delta blocki) as [hs'|]; [|done].
      intros [= <-]. eexists _, _. split; [done|]. exists [r.1]. by rewrite <- app_assoc.
    + intros Hcol. simpl in Hlen.
      destruct (IH blocki _ _ _ ltac:(lia) Hcol) as (h & tl & -> & Hpre).
      exists h, tl. split; [done|]. etrans; [|done].
      exists [r.1; next_delta]. by rewrite <- !app_assoc.
Qed.

(** *** Counting the lines of a trimmed block *)

Lemma count_nl_cons c s :
  Py.count_nl (c :: s) = (if bool_decide (c = nl) then 1 else 0) + Py.count_nl s.
Proof.
  unfold Py.count_nl. case_bool_decide.
  - by rewrite filter_cons_True.
  - by rewrite filter_cons_False.
Qed.








(** On an alternating stream every block handed to [_trim] is common. *)
Lemma collect_total context n : ∀ blocki blocks delta,
  length blocki ≤ n → op delta ≠ op_c → alternating (delta :: blocki) →
  ∃ hs, ContextDiffer.collect context blocks delta blocki = Ret hs.
Proof.
  induction n as [|n IH]; intros blocki blocks delta Hlen Hop Halt.
  { destruct blocki; [by eexists | simpl in Hlen; lia]. }
  destruct blocki as [|after [|next_delta blocki]]; [by eexists|..].
  - simpl in Halt. destruct Halt as [Hafter _].
    assert (op after = op_c) as Hc by (destruct (decide (op after = op_c)); tauto).
    cbn [ContextDiffer.collect].
    destruct (_trim_common context after dir_head false Hc) as [r ->]. by eexists.
  - simpl in Halt. destruct Halt as (Hafter & Hnext & Halt).
    assert (op after = op_c) as Hc by (destruct (decide (op after = op_c)); tauto).
    assert (op next_delta ≠ op_c) as Hd by tauto.
    cbn [ContextDiffer.collect].
    destruct (_trim_common context after dir_head true Hc) as [r ->].
    destruct (_trim_common context after dir_tail false Hc) as [r' ->].
    cbn [mbind exc_bind]. simpl in Hlen.
    destruct (r.2 : bool).
    + destruct (IH blocki [r'.1] next_delta) as [hs ->]; [lia|done|done|]. by eexists.
    + apply IH; [lia|done|done].
Qed.

Lemma context_blocks_total context bs :
  alternating bs → ∃ hs, ContextDiffer.context_blocks context bs = Ret hs.
Proof.
  intros Halt. unfold ContextDiffer.context_blocks.
  destruct bs as [|first blocki]; [by eexists|].
  case_bool_decide as Hop.
  - destruct blocki as [|next_delta blocki]; [by eexists|].
    destruct (_trim_common context first dir_tail false Hop) as [r ->].
    cbn [mbind exc_bind]. simpl in Halt. destruct Halt as [Hnext Halt].
    apply (collect_total _ (length blocki)); [done|tauto|done].
  - by apply (collect_total _ (length blocki)).
Qed.

Lemma context_blocks_two_changes context b1 b2 rest :
  op b1 ≠ op_c → op b2 ≠ op_c →
  ContextDiffer.context_blocks context (b1 :: b2 :: rest) = Raise AssertionError.
Proof.
  intros H1 H2. unfold ContextDiffer.context_blocks.
  rewrite bool_decide_eq_false_2 by done.
  destruct rest; cbn [ContextDiffer.collect]; rewrite !_trim_change by done; reflexivity.
Qed.

(** ** Matching a sequence against itself *)

Section b2j_facts.
Context `{Countable A}.

Lemma b2j_full_snoc (b : list A) y :
  difflib.b2j_full (b ++ [y]) =
  difflib.chain_setdefault_append (difflib.b2j_full b) (length b, y).
Proof.
  unfold difflib.b2j_full. rewrite imap_app, foldl_app. simpl.
  by rewrite Nat.add_0_r.
Qed.

(** [b2j] lists, for every element of [b], all its positions in
    increasing order. *)
Lemma b2j_full_spec (b : list A) :
  (∀ x js, difflib.b2j_full b !! x = Some js →
           StronglySorted lt js ∧ ∀ j, j ∈ js ↔ b !! j = Some x) ∧
  (∀ j x, b !! j = Some x → is_Some (difflib.b2j_full b !! x)).
Proof.
  induction b as [|y b [IH1 IH2]] using rev_ind.
  { split; [|done]. intros x js. unfold difflib.b2j_full. simpl.
    by rewrite lookup_empty. }
  rewrite b2j_full_snoc. unfold difflib.chain_setdefault_append. simpl.
  assert (∀ j x, (b ++ [y]) !! j = Some x ↔ b !! j = Some x ∨ (j = length b ∧ x = y)) as Hsnoc.
  { intros j x. rewrite lookup_app_Some, list_lookup_singleton_Some.
    split; [intros [?|(? & ? & ?)]|intros [?|[-> ->]]]; [by left|right; split; [lia|done]|by left|].
    right. split_and!; [lia|lia|done]. }
  split.
  - intros x js. rewrite lookup_insert. case_decide as Hxy.
    + subst x. intros [= <-].
      destruct (difflib.b2j_full b !! y) as [old|] eqn:Hold; simpl.
      * destruct (IH1 _ _ Hold) as [Hs Hm]. split.
        -- apply StronglySorted_app_2; [|done|repeat constructor].
           intros x1 x2 Hx1 ->%list_elem_of_singleton.
           apply Hm in Hx1. by apply lookup_lt_Some in Hx1.
        -- intros j. rewrite elem_of_app, list_elem_of_singleton, Hsnoc, Hm.
           split; [intros [?|?]; [by left|by right]|intros [?|[? _]]; [by left|by right]].
      * split; [repeat constructor|].
        intros j. rewrite list_elem_of_singleton, Hsnoc. split; [by right|].
        intros [Hj|[? _]]; [|done]. apply IH2 in Hj. rewrite Hold in Hj. by destruct Hj.
    + intros Hx. destruct (IH1 _ _ Hx) as [Hs Hm]. split; [done|].
      intros j. rewrite Hsnoc, Hm.
      split; [by left|intros [?|[_ ?]]; [done|congruence]].
  - intros j x. rewrite Hsnoc, lookup_insert. case_decide; [by eexists|].
    intros [Hj|[_ ->]]; [by eapply IH2|done].
Qed.

Lemma b2j_spec (b : list A) x js :
  difflib.b2j b !! x = Some js →
  StronglySorted lt js ∧ ∀ j, j ∈ js ↔ b !! j = Some x.
Proof.
  unfold difflib.b2j. destruct (200 <=? length b).
  - rewrite map_lookup_filter_Some. intros [Hx _]. by apply b2j_full_spec.
  - apply b2j_full_spec.
Qed.

Variable a : list A.

(** The positions scanned in row [i] when [a] is matched against
    itself. *)
Lemma b2j_get_self i :
  StronglySorted lt (difflib.b2j_get a a i) ∧
  (∀ j, j ∈ difflib.b2j_get a a i →
        j < length a ∧ difflib.b2j_get a a j = difflib.b2j_get a a i) ∧
  (difflib.b2j_get a a i ≠ [] → i ∈ difflib.b2j_get a a i).
Proof.
  assert (difflib.b2j_get a a i = [] ∨
          ∃ x js, a !! i = Some x ∧ difflib.b2j a !! x = Some js ∧
                  difflib.b2j_get a a i = js) as [Hnil|(x & js & Hi & Hjs & Hget)].
  { unfold difflib.b2j_get. destruct (a !! i) as [x|]; [|by left].
    destruct (difflib.b2j a !! x) as [js|] eqn:Hjs; [|by left].
    right. by exists x, js. }
  { rewrite Hnil. split_and!; [constructor|by intros ? ?%elem_of_nil|done]. }
  rewrite Hget. destruct (b2j_spec _ _ _ Hjs) as [Hs Hm]. split_and!; [done| |].
  - intros j Hj. apply Hm in Hj. split; [by eapply lookup_lt_Some|].
    unfold difflib.b2j_get. by rewrite Hj, Hjs.
  - intros _. by apply Hm.
Qed.

Lemma visible_diag_run i :
  visible a i = true → diag_run a i = S (diag_prev a i).
Proof. intros Hv. destruct i; simpl; by rewrite Hv. Qed.

Lemma invisible_diag_run i : visible a i = false → diag_run a i = 0.
Proof. intros Hv. destruct i; simpl; by rewrite Hv. Qed.

End b2j_facts.

Section self_match.
Context `{Countable A}.
Variable a : list A.

Local Abbreviation get m j := (default 0 (m !! j)) (only parsing).
Local Abbreviation prev_row := (prev_row a).

(** One row of the search: the best match stays on the diagonal, and is
    at least as long as every diagonal run seen so far. *)
Lemma scan_row_diagonal i j2len todo : ∀ newj2len best,
  StronglySorted lt todo →
  (∀ j, j ∈ todo → j < length a ∧ visible a j = true ∧ visible a i = true) →
  prev_row i j2len →
  (∀ j, get newj2len j ≤ diag_run a j ∧ get newj2len j ≤ diag_run a i) →
  (visible a i = true →
     i ∈ todo ∨ (diag_run a i ≤ best.2 ∧ get newj2len i = diag_run a i)) →
  best.1.1 = best.1.2 →
  (∀ i', i' < i → diag_run a i' ≤ best.2) →
  let r := difflib.scan_row i 0 (length a) j2len todo newj2len best in
  (∀ j, get r.1 j ≤ diag_run a j ∧ get r.1 j ≤ diag_run a i) ∧
  (visible a i = true → diag_run a i ≤ r.2.2 ∧ get r.1 i = diag_run a i) ∧
  r.2.1.1 = r.2.1.2 ∧
  (∀ i', i' < i → diag_run a i' ≤ r.2.2).
Proof.
  induction todo as [|j todo IH]; intros newj2len best Hsort Htodo Hprev Hnew Hi Hdiag Hbest.
  { simpl. split_and!; [done| |done..].
    intros Hv. destruct (Hi Hv) as [?%elem_of_nil|?]; done. }
  apply StronglySorted_cons in Hsort as [Hgt Hsort].
  destruct (Htodo j) as (Hjn & Hvj & Hvi); [by left|].
  cbn [difflib.scan_row]. replace (j <? 0) with false by done.
  assert ((length a <=? j) = false) as -> by (apply Nat.leb_gt; lia).
  destruct Hprev as (Hp1 & Hp2 & Hp3).
  pose proof (visible_diag_run a j Hvj) as Hdj.
  pose proof (visible_diag_run a i Hvi) as Hdi.
  set (k := difflib.j2lenget_pred j2len j + 1).
  assert (k ≤ diag_run a j ∧ k ≤ diag_run a i) as [Hkj Hki].
  { subst k. specialize (Hp1 j). specialize (Hp2 j). lia. }
  assert (j = i → k = diag_run a i) as Hkeq.
  { intros ->. subst k. lia. }
  apply IH; [done| |done| | | |].
  - intros j' Hj'. apply Htodo. by right.
  - intros j'. rewrite lookup_insert. case_decide as Hjj; [subst j'; simpl; lia|apply Hnew].
  - intros Hv. destruct (Hi Hv) as [[->|Hin]%elem_of_cons|[Hb Hg]].
    + right. rewrite lookup_insert_eq. simpl. split; [|by rewrite Hkeq].
      destruct (best.2 <? k) eqn:Hlt; simpl; [by rewrite Hkeq|].
      apply Nat.ltb_ge in Hlt. rewrite <- Hkeq by done. lia.
    + by left.
    + right. split.
      * destruct (best.2 <? k) eqn:Hlt; simpl; [|done].
        apply Nat.ltb_lt in Hlt. lia.
      * rewrite lookup_insert. case_decide as Hjj; [|done]. simpl. by apply Hkeq.
  - destruct (best.2 <? k) eqn:Hlt; simpl; [|done].
    apply Nat.ltb_lt in Hlt.
    destruct (Nat.lt_trichotomy j i) as [Hji|[->|Hij]]; [|done|].
    + specialize (Hbest j Hji). lia.
    + destruct (Hi Hvi) as [[->|Hin]%elem_of_cons|[Hb _]]; [lia| |lia].
      rewrite Forall_forall in Hgt. specialize (Hgt i Hin). lia.
  - intros i' Hi'. specialize (Hbest i' Hi').
    destruct (best.2 <? k) eqn:Hlt; simpl; [|done].
    apply Nat.ltb_lt in Hlt. lia.
Qed.

(** The rows [start, start + n) of the search. *)
Lemma scan_rows_diagonal n : ∀ start (st : gmap nat nat * difflib.block),
  start + n ≤ length a →
  prev_row start st.1 →
  st.2.1.1 = st.2.1.2 →
  (∀ i', i' < start → diag_run a i' ≤ st.2.2) →
  let r := foldl (λ st i, difflib.scan_row i 0 (length a) st.1 (difflib.b2j_get a a i) ∅ st.2)
                 st (seq start n) in
  r.2.1.1 = r.2.1.2.
Proof.
  induction n as [|n IH]; intros start st Hlen Hprev Hdiag Hbest; simpl; [done|].
  destruct (b2j_get_self a start) as (Hsort & Hin & Hself).
  destruct (scan_row_diagonal start st.1 (difflib.b2j_get a a start) ∅ st.2)
    as (Hrow & Hvis & Hd & Hb); [done| |done| | |done|done|].
  { intros j Hj. destruct (Hin j Hj) as [Hjn Hjeq]. split; [done|].
    unfold visible. rewrite Hjeq. rewrite !bool_decide_eq_true.
    split; by intros Hnil; rewrite Hnil in Hj; apply elem_of_nil in Hj. }
  { intros j. rewrite lookup_empty. simpl. lia. }
  { intros Hv. left. apply Hself. by apply bool_decide_eq_true in Hv. }
  apply IH; [lia| |done|].
  - split_and!.
    + intros [|j]; simpl; [lia|apply Hrow].
    + intros [|j]; simpl; [lia|apply Hrow].
    + simpl. destruct (visible a start) eqn:Hv; [by apply Hvis|].
      pose proof (invisible_diag_run a start Hv) as H0.
      destruct (Hrow start) as [Hle _]. rewrite H0 in *. lia.
  - intros i' Hi'. destruct (decide (i' = start)) as [->|]; [|apply Hb; lia].
    destruct (visible a start) eqn:Hv; [by apply Hvis|].
    rewrite (invisible_diag_run a start Hv). lia.
Qed.

Lemma scan_rows_self :
  (difflib.scan_rows a a 0 (length a) 0 (length a)).1.1 =
  (difflib.scan_rows a a 0 (length a) 0 (length a)).1.2.
Proof.
  unfold difflib.scan_rows. rewrite Nat.sub_0_r.
  apply (scan_rows_diagonal (length a) 0 (∅, (0, 0, 0))); [done| |done|lia].
  split_and!; [intros [|j]|intros [|j]|]; simpl; rewrite ?lookup_empty; simpl; lia.
Qed.

Lemma same_at_self want i x :
  a !! i = Some x → want x = true → difflib.same_at a a want i i = true.
Proof.
  intros Hi Hw. unfold difflib.same_at. rewrite Hi, Hw. by rewrite bool_decide_eq_true_2.
Qed.

Lemma extend_left_self want : (∀ x, want x = true) → ∀ besti bestsize,
  besti ≤ length a →
  difflib.extend_left a a want 0 0 besti besti bestsize = (0, 0, besti + bestsize).
Proof.
  intros Hw. induction besti as [|i IH]; intros bestsize Hle; [done|].
  cbn [difflib.extend_left].
  destruct (lookup_lt_is_Some_2 a i) as [x Hx]; [lia|].
  rewrite (same_at_self want i x Hx (Hw x)). simpl.
  rewrite IH by lia. f_equal. lia.
Qed.

Lemma extend_right_self want : (∀ x, want x = true) → ∀ fuel bestsize,
  bestsize + fuel = length a →
  difflib.extend_right a a want (length a) (length a) 0 0 fuel bestsize = length a.
Proof.
  intros Hw. induction fuel as [|fuel IH]; intros bestsize Hlen; simpl; [lia|].
  destruct (lookup_lt_is_Some_2 a bestsize) as [x Hx]; [lia|].
  rewrite (same_at_self want bestsize x Hx (Hw x)).
  assert ((bestsize <? length a) = true) as -> by (apply Nat.ltb_lt; lia).
  simpl. apply IH. lia.
Qed.

(** Searching a sequence in itself finds all of it. *)
Lemma find_longest_match_self :
  difflib.find_longest_match a a 0 (length a) 0 (length a) = (0, 0, length a).
Proof.
  unfold difflib.find_longest_match.
  pose proof (scan_rows_inside a a 0 (length a) 0 (length a)) as Hin.
  pose proof scan_rows_self as Hdiag.
  destruct (difflib.scan_rows a a 0 (length a) 0 (length a)) as [[bi bj] bs].
  unfold inside in Hin. simpl in Hin, Hdiag. subst bj.
  destruct Hin as (_ & Hle & _); [lia..|].
  assert (∀ x : A, negb (difflib.isbjunk x) = true) as Hnj.
  { intros x. unfold difflib.isbjunk, difflib.bjunk.
    by rewrite bool_decide_eq_false_2 by apply not_elem_of_empty. }
  unfold difflib.extend at 2. cbn [fst snd].
  rewrite (extend_left_self _ Hnj) by lia.
  rewrite (extend_right_self _ Hnj) by lia.
  unfold difflib.extend. cbn [fst snd difflib.extend_left].
  by rewrite Nat.sub_diag.
Qed.

(** Hence the matching blocks of a sequence with itself. *)
Lemma get_matching_blocks_self :
  difflib.get_matching_blocks a a =
  if 0 <? length a then [(0, 0, length a); (length a, length a, 0)]
  else [(0, 0, 0)].
Proof.
  unfold difflib.get_matching_blocks.
  replace (2 * length a + 1) with (S (2 * length a)) by lia.
  cbn [difflib.match_regions]. rewrite find_longest_match_self.
  generalize (2 * length a). destruct (length a) as [|n]; intros fuel.
  - by destruct fuel.
  - replace (0 <? S n) with true by done. rewrite Nat.ltb_irrefl. simpl.
    by destruct fuel.
Qed.

End self_match.

(** ** Aligning texts with the same words *)

Lemma join_empty_range tokens first :
  tokens_indexed tokens → first ≤ length tokens →
  Tokenizer.join tokens first first = Ret None.
Proof.
  intros Hidx Hle.
  destruct (join_spec tokens first first) as (r & -> & _ & Hn & _); [done..|].
  f_equal. by apply Hn.
Qed.

(** When the two token lists carry the same keys, the alignment is a
    single common block over all tokens, or empty if there are none. *)
Lemma blocks_same_keys (xs ys : list Token) (key : Token → str) :
  tokens_indexed xs → tokens_indexed ys →
  key <$> xs = key <$> ys →
  Differ.blocks (mkDiffer xs ys (key <$> xs) (key <$> ys)) =
  if 0 <? length xs
  then lhs ← Tokenizer.join xs 0 (length xs);
       rhs ← Tokenizer.join ys 0 (length ys);
       match lhs, rhs with
       | Some lhs, Some rhs => Ret [mkDelta op_c lhs rhs]
       | _, _ => Raise AssertionError
       end
  else Ret [].
Proof.
  intros Hia Hib Hkeys.
  assert (length ys = length xs) as Hlen.
  { apply (f_equal length) in Hkeys. by rewrite !length_fmap in Hkeys. }
  unfold Differ.blocks. cbn [atoks btoks seqm_a seqm_b].
  rewrite <- Hkeys, get_matching_blocks_self, length_fmap.
  destruct (0 <? length xs) eqn:Hn.
  - pose proof Hn as Hpos%Nat.ltb_lt. cbn [Differ.blocks_from].
    rewrite !join_empty_range by (done || lia). rewrite Hn.
    unfold Differ.common_block. rewrite !Nat.add_0_l, Nat.add_0_r.
    cbn [mbind exc_bind Differ.change_block truth_of andb app]. rewrite Hlen.
    rewrite !join_empty_range by (done || lia).
    destruct (join_range_not_None xs 0 (length xs)) as (ta & Hta & _); [done..|].
    destruct (join_range_not_None ys 0 (length ys)) as (tb & Htb & _); [done|lia|done|].
    rewrite Hlen in Htb. by rewrite Hta, Htb.
  - apply Nat.ltb_ge in Hn. assert (length xs = 0) as Hz by lia.
    cbn [Differ.blocks_from].
    rewrite !join_empty_range by (done || lia). done.
Qed.

Lemma Differ_blocks_same_words a b boundary ignore_case :
  word <$> Tokenizer.__init__ a boundary = word <$> Tokenizer.__init__ b boundary →
  ∃ bs, Differ.blocks (Differ.__init__ a b boundary ignore_case) = Ret bs ∧
        ((Tokenizer.__init__ a boundary = [] ∧ bs = []) ∨
         (∃ ta tb, bs = [mkDelta op_c ta tb] ∧
                   Tokenizer.__init__ a boundary ≠ [] ∧
                   Tokenizer.join (Tokenizer.__init__ a boundary) 0
                     (length (Tokenizer.__init__ a boundary)) = Ret (Some ta) ∧
                   Tokenizer.join (Tokenizer.__init__ b boundary) 0
                     (length (Tokenizer.__init__ b boundary)) = Ret (Some tb) ∧
                   Token.__str__ ta = tokens_text (Tokenizer.__init__ a boundary) ∧
                   Token.__str__ tb = tokens_text (Tokenizer.__init__ b boundary))).
Proof.
  intros Hwords. unfold Differ.__init__.
  set (ta := Tokenizer.__init__ a boundary) in *.
  set (tb := Tokenizer.__init__ b boundary) in *.
  assert (length tb = length ta) as Hlen.
  { apply (f_equal length) in Hwords. by rewrite !length_fmap in Hwords. }
  rewrite (blocks_same_keys ta tb (λ t, (if ignore_case then Py.lower else id) (word t)));
    [|apply Tokenizer_indexed..|].
  2: { change (((if ignore_case then Py.lower else id) ∘ word) <$> ta =
               ((if ignore_case then Py.lower else id) ∘ word) <$> tb).
       by rewrite !list_fmap_compose, Hwords. }
  destruct (0 <? length ta) eqn:Hn.
  - apply Nat.ltb_lt in Hn.
    destruct (join_range_not_None ta 0 (length ta)) as (t1 & Ht1 & Hs1 & _);
      [apply Tokenizer_indexed|done..|].
    destruct (join_range_not_None tb 0 (length tb)) as (t2 & Ht2 & Hs2 & _);
      [apply Tokenizer_indexed|lia|done|].
    rewrite Ht1, Ht2. eexists. split; [done|]. right. exists t1, t2.
    rewrite Hs1, Hs2. unfold Py.slice. rewrite !drop_0, !Nat.sub_0_r, !firstn_all.
    split_and!; [done| |done..]. intros Hnil. rewrite Hnil in Hn. simpl in Hn. lia.
  - apply Nat.ltb_ge in Hn. destruct ta; [|simpl in Hn; lia].
    eexists. split; [done|]. by left.
Qed.

(** ** Diffing a text against itself *)

Lemma Differ_blocks_self s boundary ignore_case :
  ∃ bs, Differ.blocks (Differ.__init__ s s boundary ignore_case) = Ret bs ∧
        ((Tokenizer.__init__ s boundary = [] ∧ bs = []) ∨
         (∃ t, bs = [mkDelta op_c t t] ∧ Tokenizer.__init__ s boundary ≠ [] ∧
               Token.__str__ t = tokens_text (Tokenizer.__init__ s boundary))).
Proof.
  destruct (Differ_blocks_same_words s s boundary ignore_case eq_refl)
    as (bs & Hbs & [[Hnil ->]|(ta & tb & -> & Hne & Hja & Hjb & Hta & _)]).
  - exists []. split; [done|]. by left.
  - rewrite Hja in Hjb. simplify_eq. eexists. split; [done|]. right. by exists tb.
Qed.

Lemma LineDiffer_init_self s boundary reverse ignore_case :
  ∃ s', LineDiffer.__init__ s s boundary reverse ignore_case =
        Ret (Differ.__init__ s' s' Re.newline ignore_case).
Proof.
  unfold LineDiffer.__init__. case_bool_decide; [|by eexists].
  destruct (Differ_blocks_self s boundary ignore_case) as (bs & -> & [[_ ->]|(t & -> & _)]).
  - by exists [].
  - cbn. unfold LineDiffer.reduce_block. cbn. by eexists.
Qed.

(** With nothing but at most one common block, the three line styles
    render nothing. *)
Lemma line_styles_empty (self : differ) bs :
  Differ.blocks self = Ret bs →
  bs = [] ∨ (∃ t1 t2, bs = [mkDelta op_c t1 t2]) →
  NormalDiffer.get_diff self = Ret [] ∧
  (∀ context, ContextDiffer.get_diff context self = Ret []) ∧
  (∀ context, UnifiedDiffer.get_diff context self = Ret []).
Proof.
  intros Hbs Hshape.
  unfold NormalDiffer.get_diff, NormalDiffer.hunks, ContextDiffer.get_diff,
    ContextDiffer.hunks, UnifiedDiffer.get_diff, UnifiedDiffer.hunks.
  rewrite Hbs. destruct Hshape as [->|(t1 & t2 & ->)]; done.
Qed.

(** ** Exchanging the two inputs *)

Lemma change_block_swap lo ro i j :
  Differ.change_block ro lo j i = swap_delta <$> Differ.change_block lo ro i j.
Proof. by destruct lo, ro. Qed.

Lemma common_block_swap xs ys i j n bs :
  Differ.common_block xs ys i j n = Ret bs →
  Differ.common_block ys xs j i n = Ret (swap_delta <$> bs).
Proof.
  unfold Differ.common_block.
  destruct (Tokenizer.join xs i (i + n)) as [[tl|]|],
           (Tokenizer.join ys j (j + n)) as [[tr|]|]; try done.
  by intros [= <-].
Qed.

(** [blocks] itself treats the two sides alike: on mirrored matching
    blocks it yields the mirrored alignment. *)
Lemma blocks_from_swap xs ys mbs : ∀ ci cj bs,
  Differ.blocks_from xs ys ci cj mbs = Ret bs →
  Differ.blocks_from ys xs cj ci (swap_block <$> mbs) = Ret (swap_delta <$> bs).
Proof.
  induction mbs as [|[[i j] n] mbs IH]; intros ci cj bs.
  { by intros [= <-]. }
  cbn [Differ.blocks_from fmap list_fmap swap_block fst snd].
  destruct (Tokenizer.join xs ci i) as [lo|]; [|done].
  destruct (Tokenizer.join ys cj j) as [ro|]; [|done].
  cbn [mbind exc_bind].
  destruct (0 <? n).
  - destruct (Differ.common_block xs ys i j n) as [cb|] eqn:Hcb; [|done].
    rewrite (common_block_swap _ _ _ _ _ _ Hcb). cbn [mbind exc_bind].
    destruct (Differ.blocks_from xs ys (i + n) (j + n) mbs) as [rest|] eqn:Hrest; [|done].
    rewrite (IH _ _ _ Hrest). cbn [mbind exc_bind]. intros [= <-].
    by rewrite change_block_swap, !fmap_app.
  - cbn [mbind exc_bind].
    destruct (Differ.blocks_from xs ys (i + n) (j + n) mbs) as [rest|] eqn:Hrest; [|done].
    rewrite (IH _ _ _ Hrest). cbn [mbind exc_bind]. intros [= <-].
    by rewrite change_block_swap, !fmap_app.
Qed.

(** ** The patterns of the model are well behaved *)

Lemma finditer_char_ok x s : ∀ pos prev n,
  prev ≤ pos → pos + length s ≤ n →
  spans_ok n prev (Re.finditer_char x pos s) = true.
Proof.
  induction s as [|c s IH]; intros pos prev n Hprev Hn; simpl; [done|].
  simpl in Hn. case_bool_decide; [|apply IH; lia].
  apply spans_ok_cons. simpl. split_and!; [lia..|]. apply IH; lia.
Qed.

Lemma newline_ok s : matches_ok Re.newline s = true.
Proof. apply finditer_char_ok; lia. Qed.

Lemma char_ok x s : matches_ok (Re.char x) s = true.
Proof. apply finditer_char_ok; lia. Qed.

Lemma finditer_ws_ok s : ∀ run pos prev n,
  from_option (λ st, prev ≤ st ∧ st ≤ pos) (prev ≤ pos) run →
  pos + length s ≤ n →
  spans_ok n prev (Re.finditer_ws run pos s) = true.
Proof.
  induction s as [|c s IH]; intros run pos prev n Hrun Hn;
    destruct run as [st|]; cbn [from_option length Re.finditer_ws] in *.
  - apply spans_ok_cons. simpl. split_and!; [lia..|done].
  - done.
  - destruct (Re.is_space c).
    + apply IH; simpl; lia.
    + apply spans_ok_cons. simpl. split_and!; [lia..|]. apply IH; simpl; lia.
  - destruct (Re.is_space c); apply IH; simpl; lia.
Qed.

Lemma whitespace_ok s : matches_ok Re.whitespace s = true.
Proof. apply finditer_ws_ok; simpl; lia. Qed.

Lemma empty_ok s : matches_ok Re.empty s = true.
Proof.
  assert (∀ cnt start prev n, prev ≤ start → start + cnt ≤ S n →
            spans_ok n prev ((λ p, mkMatch p p) <$> seq start cnt) = true) as Hgen.
  { induction cnt as [|cnt IH]; intros start prev n Hp Hn; [done|].
    cbn [seq fmap list_fmap]. apply spans_ok_cons. simpl. split_and!; [lia..|].
    apply IH; lia. }
  apply (Hgen (S (length s)) 0 0 (length s)); lia.
Qed.

Lemma finditer_wb_ok s : ∀ prev_word pos prev n,
  prev ≤ pos → pos + length s ≤ n →
  spans_ok n prev (Re.finditer_wb prev_word pos s) = true.
Proof.
  induction s as [|c s IH]; intros prev_word pos prev n Hprev Hn; simpl in *.
  - destruct prev_word; [|done]. apply spans_ok_cons. simpl. lia.
  - destruct (xorb _ _); [|apply IH; lia].
    apply spans_ok_cons. simpl. split_and!; [lia..|]. apply IH; lia.
Qed.

Lemma word_boundary_ok s : matches_ok Re.word_boundary s = true.
Proof. apply finditer_wb_ok; lia. Qed.

(** ** The truth value of tokens *)

(** What the program declares: a token is false exactly when its word and
    its separator are both empty. *)
Lemma Token_nonzero_spec t :
  Token.__nonzero__ t = false ↔ word t = [] ∧ sep t = [].
Proof.
  unfold Token.__nonzero__. destruct (word t), (sep t); simpl; split; try done.
  all: by intros [??].
Qed.

(** What Python 3 computes: every token is true. *)
Lemma Token_truth_always t : Token.truth t = true.
Proof. done. Qed.

(** So the Normal renderer never skips a side: every hunk has its [< ]
    part, the separator and its [> ] part. *)
Lemma NormalDiffer_hunk_text_full b :
  NormalDiffer.hunk_text b =
  NormalDiffer._linerange (lhs b)
  ++ (match op b with op_l => lit "d" | op_r => lit "a" | _ => lit "c" end)
  ++ NormalDiffer._linerange (rhs b) ++ [nl]
  ++ LineDiffer._preface (lit "< ") (lhs b)
  ++ lit "---" ++ [nl]
  ++ LineDiffer._preface (lit "> ") (rhs b).
Proof.
  unfold NormalDiffer.hunk_text. rewrite !Token_truth_always.
  unfold Py.join_empty. cbn [app concat]. by rewrite !app_nil_r, <- !app_assoc.
Qed.

(** ** The cases of the test suite and the scenarios of the specification *)

Example test_isplit_empty : isplit Re.whitespace (lit "") = [lit ""].
Proof. reflexivity. Qed.

Example test_isplit_x : isplit Re.whitespace (lit "x") = [lit "x"].
Proof. reflexivity. Qed.

Example test_isplit_space : isplit Re.whitespace (lit " ") = [lit ""; lit " "; lit ""].
Proof. reflexivity. Qed.

Example test_isplit_whitespace :
  isplit Re.whitespace (lit "foo  bar baz") = lit <$> ["foo"; "  "; "bar"; " "; "baz"]%string.
Proof. reflexivity. Qed.

Example test_isplit_word_boundary :
  isplit Re.word_boundary (lit "foo  bar baz") =
  lit <$> ["foo"; ""; "  "; ""; "bar"; ""; " "; ""; "baz"]%string.
Proof. reflexivity. Qed.

Example test_isplit_single_space :
  isplit (Re.char " ") (lit "foo  bar baz") =
  lit <$> ["foo"; " "; ""; " "; "bar"; " "; "baz"]%string.
Proof. reflexivity. Qed.

Example test_isplit_letter :
  isplit (Re.char "a") (lit "foo  bar baz") =
  lit <$> ["foo  b"; "a"; "r b"; "a"; "z"]%string.
Proof. reflexivity. Qed.

Example test_countlines :
  countlines <$> [lit ""; [nl]; [nl; nl]; lit "foo"; lines ["foo"]; lines ["foo"] ++ lit "bar";
                  lines ["foo"; "bar"]] = [0; 1; 2; 1; 1; 2; 2].
Proof. reflexivity. Qed.

Example test_simple_tokenizer :
  Tokenizer.__init__ (lit "a b c") Re.whitespace =
  [mkToken (lit "a") (lit " ") 0; mkToken (lit "b") (lit " ") 1; mkToken (lit "c") (lit "") 2].
Proof. reflexivity. Qed.

Example test_simple_tokenizer_join :
  let t := Tokenizer.__init__ (lit "a b c") Re.whitespace in
  Tokenizer.join t 0 0 = Ret None ∧
  Tokenizer.join t 0 1 = Ret (Some (mkToken (lit "a") (lit " ") 0)) ∧
  Tokenizer.join t 0 2 = Ret (Some (mkToken (lit "a b") (lit " ") 0)) ∧
  Tokenizer.join t 0 3 = Ret (Some (mkToken (lit "a b c") (lit "") 0)) ∧
  Tokenizer.join t 1 1 = Ret None ∧
  Tokenizer.join t 1 2 = Ret (Some (mkToken (lit "b") (lit " ") 1)) ∧
  Tokenizer.join t 1 3 = Ret (Some (mkToken (lit "b c") (lit "") 1)) ∧
  Tokenizer.join t 2 2 = Ret None ∧
  Tokenizer.join t 2 3 = Ret (Some (mkToken (lit "c") (lit "") 2)) ∧
  Tokenizer.join t 4 4 = Raise AssertionError ∧
  Tokenizer.join t 3 5 = Raise AssertionError ∧
  Tokenizer.join t 2 1 = Raise AssertionError.
Proof. by repeat split. Qed.

Example test_empty_tokenizers :
  Tokenizer.__init__ (lit "") Re.whitespace = [] ∧
  Tokenizer.__init__ (lit "") Re.empty = [] ∧
  Tokenizer.join [] 0 0 = Ret None ∧
  Tokenizer.join [] 0 1 = Raise AssertionError.
Proof. by repeat split. Qed.

Example test_tokenizer_empty_boundary :
  Tokenizer.__init__ (lines ["a b"; "cd"]) Re.empty =
  [mkToken (lit "a") [] 0; mkToken (lit " ") [] 1; mkToken (lit "b") [] 2; mkToken [nl] [] 3;
   mkToken (lit "c") [] 4; mkToken (lit "d") [] 5; mkToken [nl] [] 6].
Proof. reflexivity. Qed.

Example test_tokenizer_newline_boundary :
  Tokenizer.__init__ (lines ["a b"; "cd"]) (Re.char nl) =
  [mkToken (lit "a b") [nl] 0; mkToken (lit "cd") [nl] 1] ∧
  Tokenizer.__init__ (lines ["a b"; "cd"] ++ lit "e") (Re.char nl) =
  [mkToken (lit "a b") [nl] 0; mkToken (lit "cd") [nl] 1; mkToken (lit "e") [] 2].
Proof. by split. Qed.

Example scenario_word_diff :
  word_diff (lit "foo bar") (lit "foo baz") Re.whitespace default_markers false =
  Ret (lit "foo [-bar-]{+baz+}").
Proof. by vm_compute. Qed.

Example scenario_normal_diff :
  normal_diff (lines ["a"; "b"; "c"]) (lines ["a"; "x"; "c"]) Re.newline false false =
  Ret (lines ["2c2"; "< b"; "---"; "> x"]).
Proof. by vm_compute. Qed.

(** * Further properties of the code *)

(** ** [shorten] *)




(** ** [Tokenizer.join]: errors and composition *)

Lemma join_invalid tokens first limit :
  ¬ (first ≤ limit ∧ limit ≤ length tokens) →
  Tokenizer.join tokens first limit = Raise AssertionError.
Proof.
  intros Hbad. unfold Tokenizer.join.
  destruct (first <=? length tokens) eqn:H1; [|done].
  apply Nat.leb_le in H1. cbn [assert mbind exc_bind].
  destruct ((first <=? limit) && (limit <=? length tokens)) eqn:H2; [|done].
  apply andb_true_iff in H2 as [?%Nat.leb_le ?%Nat.leb_le]. lia.
Qed.

(** Behind its assertions [join] only reads tokens that exist. *)
Lemma join_not_IndexError tokens first limit :
  Tokenizer.join tokens first limit ≠ Raise IndexError.
Proof.
  unfold Tokenizer.join.
  destruct (first <=? length tokens) eqn:H1; [|done].
  cbn [assert mbind exc_bind].
  destruct ((first <=? limit) && (limit <=? length tokens)) eqn:H2; [|done].
  apply andb_true_iff in H2 as [Hfl%Nat.leb_le Hll%Nat.leb_le].
  cbn [assert mbind exc_bind].
  destruct (limit <=? first) eqn:Hempty; [done|]. apply Nat.leb_gt in Hempty.
  destruct (lookup_lt_is_Some_2 tokens first) as [tf Htf]; [lia|].
  destruct (lookup_lt_is_Some_2 tokens (limit - 1)) as [tl Htl]; [lia|].
  unfold getitem. rewrite Htf, Htl. cbn [mbind exc_bind].
  destruct (limit - 1 =? first); [done|].
  by destruct (bool_decide (idx tf = Z.of_nat first)).
Qed.

Lemma join_sep tokens first limit t tl :
  Tokenizer.join tokens first limit = Ret (Some t) →
  tokens !! (limit - 1) = Some tl → sep t = sep tl.
Proof.
  unfold Tokenizer.join.
  destruct (first <=? length tokens); [|done]. cbn [assert mbind exc_bind].
  destruct ((first <=? limit) && (limit <=? length tokens)); [|done].
  cbn [assert mbind exc_bind].
  destruct (limit <=? first); [done|].
  destruct (limit - 1 =? first) eqn:Hone.
  - apply Nat.eqb_eq in Hone. rewrite Hone. unfold getitem.
    destruct (tokens !! first); [|done]. cbn. by intros [= ->] [= ->].
  - unfold getitem. destruct (tokens !! first) as [tf|]; [|done]. cbn [mbind exc_bind].
    destruct (bool_decide _); [|done]. cbn [assert mbind exc_bind].
    intros Hj Htl. rewrite Htl in Hj. cbn in Hj. by simplify_eq.
Qed.

Lemma join_compose tokens first mid limit :
  tokens_indexed tokens → first ≤ mid → mid ≤ limit → limit ≤ length tokens →
  ∃ r1 r2 r,
    Tokenizer.join tokens first mid = Ret r1 ∧
    Tokenizer.join tokens mid limit = Ret r2 ∧
    Tokenizer.join tokens first limit = Ret r ∧
    text_of r1 ++ text_of r2 = text_of r.
Proof.
  intros Hidx H1 H2 H3.
  destruct (join_spec tokens first mid) as (r1 & Hr1 & Ht1 & _); [done|lia..|].
  destruct (join_spec tokens mid limit) as (r2 & Hr2 & Ht2 & _); [done|lia..|].
  destruct (join_spec tokens first limit) as (r & Hr & Ht & _); [done|lia..|].
  exists r1, r2, r. split_and!; [done..|].
  by rewrite Ht1, Ht2, Ht, <- tokens_text_app, slice_slice.
Qed.

(** ** Rendering helpers *)

Lemma endswith_nl_snoc s : Py.endswith_nl (s ++ [nl]) = true.
Proof. unfold Py.endswith_nl. by rewrite last_snoc, bool_decide_eq_true_2. Qed.

Lemma _addnl_ends_with_newline s : Py.endswith_nl (LineDiffer._addnl s) = true.
Proof.
  unfold LineDiffer._addnl. destruct (Py.endswith_nl s) eqn:He; [done|].
  unfold LineDiffer.no_newline_marker.
  replace (s ++ nl :: lit "\ No newline at end of file" ++ [nl])
    with ((s ++ nl :: lit "\ No newline at end of file") ++ [nl])
    by by rewrite <- app_assoc.
  apply endswith_nl_snoc.
Qed.

Lemma _addnl_idempotent s : LineDiffer._addnl (LineDiffer._addnl s) = LineDiffer._addnl s.
Proof.
  unfold LineDiffer._addnl at 1. by rewrite _addnl_ends_with_newline.
Qed.

Lemma after_each_nl_length p s :
  length (Py.after_each_nl p s) = length s + length p * Py.count_nl s.
Proof.
  induction s as [|c s IH]; simpl; [unfold Py.count_nl; simpl; lia|].
  rewrite count_nl_cons. case_bool_decide; simpl; rewrite ?length_app, IH; lia.
Qed.

Lemma sub_line_starts_length p s :
  length (Py.sub_line_starts p s) = length s + length p * (Py.count_nl s + 1).
Proof. unfold Py.sub_line_starts. rewrite length_app, after_each_nl_length. lia. Qed.

Lemma after_each_nl_no_prefix s : Py.after_each_nl [] s = s.
Proof. induction s as [|c s IH]; simpl; [done|]. case_bool_decide; simpl; by rewrite IH. Qed.


(** A Normal hunk is never the empty string. *)
Lemma NormalDiffer_hunk_text_nonempty b : NormalDiffer.hunk_text b ≠ [].
Proof.
  rewrite NormalDiffer_hunk_text_full. intros Hnil.
  apply (f_equal length) in Hnil. rewrite !length_app in Hnil. simpl in Hnil. lia.
Qed.

Lemma NormalDiffer_hunks_of_empty bs :
  Py.join_empty (NormalDiffer.hunks_of bs) = [] ↔ Forall (λ b, op b = op_c) bs.
Proof.
  unfold NormalDiffer.hunks_of, Py.join_empty.
  induction bs as [|b bs IH]; [by split|].
  destruct (decide (op b = op_c)) as [Hc|Hc].
  - rewrite filter_cons_False by (intros ?; done). rewrite IH, Forall_cons. tauto.
  - rewrite filter_cons_True by done. cbn [fmap list_fmap concat]. split.
    + intros Hnil. apply app_eq_nil in Hnil as [Hnil _].
      by apply NormalDiffer_hunk_text_nonempty in Hnil.
    + intros Hall. apply Forall_cons in Hall as [? _]. done.
Qed.

(** ** Hunk assembly keeps the changes *)

Lemma _trim_Ret context delta dir inner r :
  ContextDiffer._trim context delta dir inner = Ret r →
  op delta = op_c ∧ op r.1 = op_c.
Proof.
  unfold ContextDiffer._trim. case_bool_decide as Hop; [|done].
  cbn [assert mbind exc_bind]. destruct (_ <=? _); intros [= <-]; by destruct dir.
Qed.

(** Closes equations between filtered block lists once the operations of
    the blocks involved are known. *)
Ltac filter_blocks :=
  rewrite ?filter_app, ?filter_cons, ?filter_nil;
  repeat case_decide; try done;
  rewrite <- ?app_assoc; cbn [app]; by rewrite ?app_nil_r.

Lemma collect_changes context n : ∀ blocki blocks delta hs,
  length blocki ≤ n →
  ContextDiffer.collect context blocks delta blocki = Ret hs →
  filter (λ b, op b ≠ op_c) (concat hs) =
  filter (λ b, op b ≠ op_c) (blocks ++ delta :: blocki).
Proof.
  induction n as [|n IH]; intros blocki blocks delta hs Hlen.
  { destruct blocki; [|simpl in Hlen; lia]. intros [= <-]. simpl. by rewrite app_nil_r. }
  destruct blocki as [|after [|next_delta blocki]]; cbn [ContextDiffer.collect].
  - intros [= <-]. simpl. by rewrite app_nil_r.
  - destruct (ContextDiffer._trim context after dir_head false) as [r|] eqn:Hr; [|done].
    apply _trim_Ret in Hr as [Ha Hr]. intros [= <-]. cbn [concat]. rewrite app_nil_r.
    filter_blocks.
  - destruct (ContextDiffer._trim context after dir_head true) as [r|] eqn:Hr; [|done].
    apply _trim_Ret in Hr as [Ha Hr]. cbn [mbind exc_bind]. simpl in Hlen.
    destruct (r.2 : bool).
    + destruct (ContextDiffer._trim context after dir_tail false) as [r'|] eqn:Hr'; [|done].
      apply _trim_Ret in Hr' as [_ Hr']. cbn [mbind exc_bind].
      destruct (ContextDiffer.collect context [r'.1] next_delta blocki) as [hs'|] eqn:Hcol;
        [|done].
      intros [= <-]. apply IH in Hcol; [|lia]. cbn [concat].
      rewrite filter_app, Hcol. filter_blocks.
    + intros Hcol. apply IH in Hcol; [|lia]. rewrite Hcol. filter_blocks.
Qed.

Lemma context_blocks_changes context bs hs :
  ContextDiffer.context_blocks context bs = Ret hs →
  filter (λ b, op b ≠ op_c) (concat hs) = filter (λ b, op b ≠ op_c) bs.
Proof.
  unfold ContextDiffer.context_blocks. destruct bs as [|first blocki]; [by intros [= <-]|].
  case_bool_decide as Hop.
  - destruct blocki as [|next_delta blocki].
    + intros [= <-]. simpl. by rewrite filter_cons_False by (intros ?; done).
    + destruct (ContextDiffer._trim context first dir_tail false) as [r|] eqn:Hr; [|done].
      apply _trim_Ret in Hr as [_ Hr]. cbn [mbind exc_bind]. intros Hcol.
      apply (collect_changes _ (length blocki)) in Hcol; [|done]. rewrite Hcol.
      cbn [app]. filter_blocks.
  - intros Hcol. by apply (collect_changes _ (length blocki)) in Hcol.
Qed.

(** ** The labels of the blocks *)

Lemma change_block_labelled lo ro i j : Forall well_labelled (Differ.change_block lo ro i j).
Proof. destruct lo, ro; by repeat constructor. Qed.

Lemma common_block_labelled xs ys i j n bs :
  Differ.common_block xs ys i j n = Ret bs → Forall well_labelled bs.
Proof.
  unfold Differ.common_block.
  destruct (Tokenizer.join xs i (i + n)) as [[tl|]|],
           (Tokenizer.join ys j (j + n)) as [[tr|]|]; try done.
  intros [= <-]. by repeat constructor.
Qed.

Lemma blocks_from_labelled xs ys mbs : ∀ ci cj bs,
  Differ.blocks_from xs ys ci cj mbs = Ret bs → Forall well_labelled bs.
Proof.
  induction mbs as [|[[i j] n] mbs IH]; intros ci cj bs.
  { intros [= <-]. constructor. }
  cbn [Differ.blocks_from].
  destruct (Tokenizer.join xs ci i) as [lo|]; [|done].
  destruct (Tokenizer.join ys cj j) as [ro|]; [|done].
  cbn [mbind exc_bind].
  destruct (if 0 <? n then Differ.common_block xs ys i j n else Ret []) as [cb|] eqn:Hcb;
    [|done].
  cbn [mbind exc_bind].
  destruct (Differ.blocks_from xs ys (i + n) (j + n) mbs) as [rest|] eqn:Hrest; [|done].
  cbn [mbind exc_bind]. intros [= <-].
  rewrite !Forall_app. split_and!.
  - apply change_block_labelled.
  - destruct (0 <? n); [by eapply common_block_labelled|]. simplify_eq. constructor.
  - by eapply IH.
Qed.

(** ** From words to lines *)

Lemma reduce_block_lhs bs :
  Forall well_labelled bs →
  Py.join_empty (fst <$> (LineDiffer.reduce_block false <$> bs)) = side_text side_lhs bs.
Proof.
  unfold Py.join_empty, side_text.
  induction 1 as [|b bs Hb _ IH]; [done|].
  cbn [fmap list_fmap concat]. rewrite IH. f_equal.
  unfold LineDiffer.reduce_block, well_labelled, Token.__str__ in *. cbn [getattr].
  destruct (op b); try done. destruct Hb as [-> ->]. done.
Qed.

Lemma reduce_block_rhs bs :
  Forall well_labelled bs →
  Py.join_empty (snd <$> (LineDiffer.reduce_block true <$> bs)) = side_text side_rhs bs.
Proof.
  unfold Py.join_empty, side_text.
  induction 1 as [|b bs Hb _ IH]; [done|].
  cbn [fmap list_fmap concat]. rewrite IH. f_equal.
  unfold LineDiffer.reduce_block, well_labelled, Token.__str__ in *. cbn [getattr].
  destruct (op b); try done. destruct Hb as [-> ->]. done.
Qed.

Lemma Differ_blocks_labelled a b boundary ignore_case bs :
  Differ.blocks (Differ.__init__ a b boundary ignore_case) = Ret bs →
  Forall well_labelled bs.
Proof. apply blocks_from_labelled. Qed.

(** ** Diffing against the empty sequence *)



(** ** No token is empty *)

Lemma slice_length {A} (s : list A) i j :
  j ≤ length s → length (Py.slice s i j) = j - i.
Proof. intros Hj. unfold Py.slice. rewrite length_take, length_drop. lia. Qed.

Lemma slice_nonempty {A} (s : list A) i j :
  i < j → j ≤ length s → Py.slice s i j ≠ [].
Proof.
  intros Hij Hj Hnil. apply (f_equal length) in Hnil.
  rewrite slice_length in Hnil by done. simpl in Hnil. lia.
Qed.

Lemma isplit_loop_pairs s sepi : ∀ m_end,
  spans_ok (length s) m_end sepi = true → pairs_nonempty (isplit_loop s m_end sepi).
Proof.
  remember (length sepi) as k eqn:Hk. revert sepi Hk.
  induction (lt_wf k) as [k _ IH].
  intros [|nextm sepi] Hk m_end Hok; [done|].
  rewrite isplit_loop_cons.
  apply spans_ok_cons in Hok as (Hps & Hse & Hen & Hok). simpl in Hk.
  destruct (_ && _) eqn:Hz.
  - apply (IH (length sepi)); [lia|done..].
  - destruct (skip_zero_width nextm sepi) as [m rest] eqn:Hskip.
    destruct (skip_zero_width_spec _ _ _ _ _ Hskip Hse Hen Hok)
      as (Hst & Hse' & Hen' & Hok' & Hlen & Hwide).
    unfold isplit_yield. destruct (mstart m =? length s) eqn:Hend; [done|].
    cbn [pairs_nonempty]. split; [|apply (IH (length rest)); [lia|done..]].
    destruct (decide (mstart nextm < mend nextm)) as [Hw|Hzero].
    + right. rewrite (Hwide Hw). by apply slice_nonempty.
    + left. apply slice_nonempty; [|lia].
      apply andb_false_iff in Hz as [Hz%Nat.eqb_neq|Hz%Nat.eqb_neq]; lia.
Qed.

Lemma even_splits_pairs n : ∀ splits,
  length splits = 2 * n + 1 → pairs_nonempty splits →
  pairs_nonempty (Tokenizer.even_splits splits) ∧
  length (Tokenizer.even_splits splits) =
    (if Py.truthy (default [] (last splits)) then 2 * n + 2 else 2 * n).
Proof.
  unfold Tokenizer.even_splits.
  induction n as [|n IH]; intros splits Hlen Hpairs.
  - destruct splits as [|x [|??]]; try (simpl in Hlen; lia). simpl.
    destruct x; simpl; [done|]. split; [|done]. split; [by left|done].
  - destruct splits as [|c [|sp rest]]; try (simpl in Hlen; lia).
    simpl in Hlen. destruct Hpairs as [Hc Hpairs].
    specialize (IH rest ltac:(lia) Hpairs).
    assert (∃ x rest', rest = x :: rest') as (x & rest' & ->).
    { destruct rest; [simpl in Hlen; lia|by eexists _, _]. }
    rewrite !last_cons_cons in *.
    destruct (last (x :: rest')) as [l|] eqn:Hlast; [|by rewrite last_cons in Hlast; destruct (last rest')].
    cbn [default from_option] in *. unfold id in *. destruct (Py.truthy l).
    + destruct IH as [IHp IHl]. split; [by split|]. cbn [length app] in *. lia.
    + destruct IH as [IHp IHl].
      change (removelast (c :: sp :: x :: rest')) with (c :: sp :: removelast (x :: rest')).
      split; [by split|]. cbn [length] in *. lia.
Qed.

Lemma tokens_of_pairs (n : nat) : ∀ (splits : list str) (k : nat),
  length splits = 2 * n → pairs_nonempty splits →
  Forall (λ t, Token.__nonzero__ t = true)
         (map3 mkToken (stride2 splits) (stride2 (drop 1 splits)) (Z.of_nat <$> seq k n)) ∧
  length (map3 mkToken (stride2 splits) (stride2 (drop 1 splits)) (Z.of_nat <$> seq k n)) = n.
Proof.
  induction n as [|n IH]; intros splits k Hlen Hpairs.
  - by destruct splits.
  - destruct splits as [|x [|y l]]; simpl in Hlen; [lia..|].
    destruct Hpairs as [Hxy Hpairs].
    rewrite (stride2_cons x). cbn [drop]. rewrite (stride2_cons y).
    cbn [seq fmap list_fmap map3 length].
    destruct (IH l (S k) ltac:(lia) Hpairs) as [IHf IHl].
    split; [|by f_equal]. constructor; [|done].
    unfold Token.__nonzero__. simpl. destruct x, y; try done. by destruct Hxy.
Qed.

Lemma Tokenizer_tokens_nonempty s boundary :
  matches_ok boundary s = true →
  Forall (λ t, Token.__nonzero__ t = true) (Tokenizer.__init__ s boundary).
Proof.
  intros Hok. unfold Tokenizer.__init__, isplit.
  set (splits := isplit_loop s 0 (finditer boundary s)).
  pose proof (isplit_loop_odd s (finditer boundary s) 0) as Hodd. fold splits in Hodd.
  destruct (even_splits_pairs (length splits / 2) splits) as [Hp Hl]; [lia| |].
  { by apply isplit_loop_pairs. }
  apply (tokens_of_pairs (length (Tokenizer.even_splits splits) / 2)); [|done].
  destruct (Py.truthy _); lia.
Qed.

(** ** Lines and line tokens *)

(** With matches that are never empty, every match yields a content and
    a separator, and the last piece is the text after the last match. *)
Lemma isplit_loop_wide s sepi : ∀ m_end,
  Forall (λ m, mstart m < mend m) sepi →
  spans_ok (length s) m_end sepi = true →
  length (isplit_loop s m_end sepi) = 2 * length sepi + 1 ∧
  last (isplit_loop s m_end sepi) = Some (Py.slice_from s (last_end m_end sepi)).
Proof.
  induction sepi as [|m sepi IH]; intros m_end Hwide Hok; [done|].
  apply Forall_cons in Hwide as [Hw Hwide].
  apply spans_ok_cons in Hok as (Hps & Hse & Hen & Hok).
  rewrite isplit_loop_cons.
  assert ((mstart m =? mend m) = false) as Hne by (apply Nat.eqb_neq; lia).
  rewrite Hne. cbn [andb].
  assert (skip_zero_width m sepi = (m, sepi)) as ->.
  { destruct sepi; simpl; [done|]. by rewrite Hne. }
  unfold isplit_yield.
  assert ((mstart m =? length s) = false) as -> by (apply Nat.eqb_neq; lia).
  destruct (IH (mend m) Hwide Hok) as [IHl IHlast].
  split; [cbn [length]; lia|].
  rewrite !last_cons, IHlast. done.
Qed.

Lemma finditer_char_wide x s : ∀ pos,
  Forall (λ m, mstart m < mend m) (Re.finditer_char x pos s).
Proof.
  induction s as [|c s IH]; intros pos; simpl; [constructor|].
  case_bool_decide; [constructor; [simpl; lia|]|]; apply IH.
Qed.

Lemma finditer_nl_length s : ∀ pos, length (Re.finditer_char nl pos s) = Py.count_nl s.
Proof.
  induction s as [|c s IH]; intros pos; simpl; [done|].
  rewrite count_nl_cons. case_bool_decide; simpl; by rewrite IH.
Qed.

Lemma endswith_nl_cons c s : s ≠ [] → Py.endswith_nl (c :: s) = Py.endswith_nl s.
Proof. destruct s; [done|]. intros _. unfold Py.endswith_nl. by rewrite last_cons_cons. Qed.

(** Where the last line feed ends: at the end of a text that ends with
    one, before the end of any other text that is not empty. *)
Lemma finditer_nl_last_end s : ∀ pos e0,
  e0 ≤ pos →
  (s = [] → last_end e0 (Re.finditer_char nl pos s) = e0) ∧
  (Py.endswith_nl s = true → last_end e0 (Re.finditer_char nl pos s) = pos + length s) ∧
  (s ≠ [] → Py.endswith_nl s = false →
     last_end e0 (Re.finditer_char nl pos s) < pos + length s).
Proof.
  induction s as [|c s IH]; intros pos e0 He0.
  { split_and!; [done|done|by intros []]. }
  cbn [Re.finditer_char]. destruct (decide (s = [])) as [->|Hs].
  - assert (Py.endswith_nl [c] = bool_decide (c = nl)) as -> by done.
    case_bool_decide as Hc; unfold last_end; cbn [foldl mend Re.finditer_char length].
    + split_and!; [done|lia|done].
    + split_and!; [done|done|lia].
  - rewrite (endswith_nl_cons c s Hs). cbn [length].
    case_bool_decide as Hc.
    + unfold last_end. cbn [foldl mend]. fold (last_end (S pos) (Re.finditer_char nl (S pos) s)).
      destruct (IH (S pos) (S pos) ltac:(lia)) as (_ & Hb & Hc').
      split_and!; [done|intros He; rewrite (Hb He); lia|intros _ He; specialize (Hc' Hs He); lia].
    + destruct (IH (S pos) e0 ltac:(lia)) as (_ & Hb & Hc').
      split_and!; [done|intros He; rewrite (Hb He); lia|intros _ He; specialize (Hc' Hs He); lia].
Qed.

Lemma Tokenizer_length s boundary n :
  length (Tokenizer.even_splits (isplit boundary s)) = 2 * n →
  pairs_nonempty (Tokenizer.even_splits (isplit boundary s)) →
  length (Tokenizer.__init__ s boundary) = n.
Proof.
  intros Hlen Hp. unfold Tokenizer.__init__.
  replace (length (Tokenizer.even_splits (isplit boundary s)) / 2) with n by lia.
  by apply tokens_of_pairs.
Qed.

(** [countlines] counts the tokens of the line tokenizer. *)
Lemma newline_tokens_countlines s :
  length (Tokenizer.__init__ s Re.newline) = countlines s.
Proof.
  pose proof (newline_ok s) as Hok. unfold matches_ok in Hok.
  destruct (isplit_loop_wide s (finditer Re.newline s) 0) as [Hlen Hlast];
    [apply finditer_char_wide|done|].
  destruct (even_splits_pairs (Py.count_nl s) (isplit Re.newline s)) as [Hp Hl].
  { unfold isplit. rewrite Hlen. simpl finditer. rewrite finditer_nl_length. lia. }
  { by apply isplit_loop_pairs. }
  unfold isplit in Hl at 2. rewrite Hlast in Hl. cbn [default from_option] in Hl. unfold id in Hl.
  simpl finditer in Hl.
  destruct (finditer_nl_last_end s 0 0 ltac:(lia)) as (Ha & Hb & Hc).
  unfold countlines. destruct s as [|c s].
  - apply (Tokenizer_length _ _ 0); [|done]. rewrite Hl, Ha by done. done.
  - set (t := c :: s) in *. destruct (Py.endswith_nl t) eqn:He.
    + apply (Tokenizer_length _ _ (Py.count_nl t + 0)); [|done].
      rewrite Hl, Hb by done. unfold Py.slice_from. rewrite Nat.add_0_l, drop_all.
      cbn [Py.truthy]. lia.
    + apply (Tokenizer_length _ _ (Py.count_nl t + 1)); [|done].
      rewrite Hl. specialize (Hc ltac:(done) eq_refl).
      replace (Py.truthy (Py.slice_from t _)) with true; [lia|].
      unfold Py.slice_from.
      destruct (drop (last_end 0 (Re.finditer_char nl 0 t)) t) eqn:Hd; [|done].
      apply (f_equal length) in Hd. rewrite length_drop in Hd. simpl in Hd, Hc. lia.
Qed.

(** ** Trimming keeps the line numbers right *)



(** ** A text against nothing *)

Lemma Tokenizer_not_empty s boundary :
  matches_ok boundary s = true → s ≠ [] → Tokenizer.__init__ s boundary ≠ [].
Proof.
  intros Hok Hs Ht. apply Hs. rewrite <- (Tokenizer_reconstruction s boundary Hok).
  by rewrite Ht.
Qed.



(** ** Line differs over another boundary *)

Lemma LineDiffer_init_keeps_left a b boundary ignore_case :
  pattern boundary ≠ pattern Re.newline →
  matches_ok boundary a = true →
  ∃ b', LineDiffer.__init__ a b boundary false ignore_case
        = Ret (Differ.__init__ a b' Re.newline ignore_case).
Proof.
  intros Hpat Hok. unfold LineDiffer.__init__.
  rewrite bool_decide_eq_true_2 by done.
  destruct (Differ_blocks_spec a b boundary ignore_case) as (bs & Hbs & Hl & _ & _).
  rewrite Hbs. cbn. eexists. do 2 f_equal.
  rewrite reduce_block_lhs by (by eapply Differ_blocks_labelled).
  rewrite Hl. by apply Tokenizer_reconstruction.
Qed.

Lemma LineDiffer_init_keeps_right a b boundary ignore_case :
  pattern boundary ≠ pattern Re.newline →
  matches_ok boundary b = true →
  ∃ a', LineDiffer.__init__ a b boundary true ignore_case
        = Ret (Differ.__init__ a' b Re.newline ignore_case).
Proof.
  intros Hpat Hok. unfold LineDiffer.__init__.
  rewrite bool_decide_eq_true_2 by done.
  destruct (Differ_blocks_spec a b boundary ignore_case) as (bs & Hbs & _ & Hr & _).
  rewrite Hbs. cbn. eexists. f_equal. f_equal.
  rewrite reduce_block_rhs by (by eapply Differ_blocks_labelled).
  rewrite Hr. by apply Tokenizer_reconstruction.
Qed.

(** ** Every hunk shows a change *)

Lemma collect_hunks_change context n : ∀ blocki blocks delta hs,
  length blocki ≤ n → op delta ≠ op_c → alternating (delta :: blocki) →
  ContextDiffer.collect context blocks delta blocki = Ret hs →
  Forall (Exists (λ b, op b ≠ op_c)) hs.
Proof.
  assert (∀ (blocks : list Delta) delta tl, op delta ≠ op_c →
            Exists (λ b, op b ≠ op_c) (blocks ++ delta :: tl)) as Hex.
  { intros. apply Exists_app. right. by left. }
  induction n as [|n IH]; intros blocki blocks delta hs Hlen Hop Halt.
  { destruct blocki; [|simpl in Hlen; lia]. intros [= <-]. constructor; [|done]. by apply Hex. }
  destruct blocki as [|after [|next_delta blocki]]; cbn [ContextDiffer.collect].
  - intros [= <-]. constructor; [|done]. by apply Hex.
  - destruct (ContextDiffer._trim context after dir_head false) as [r|]; [|done].
    intros [= <-]. constructor; [|done]. by apply Hex.
  - simpl in Halt. destruct Halt as (Hafter & Hnext & Halt).
    assert (op after = op_c) as Hc by (destruct (decide (op after = op_c)); tauto).
    assert (op next_delta ≠ op_c) as Hd by tauto.
    destruct (ContextDiffer._trim context after dir_head true) as [r|]; [|done].
    cbn [mbind exc_bind]. simpl in Hlen. destruct (r.2 : bool).
    + destruct (ContextDiffer._trim context after dir_tail false) as [r'|]; [|done].
      cbn [mbind exc_bind].
      destruct (ContextDiffer.collect context [r'.1] next_delta blocki) as [hs'|] eqn:Hcol;
        [|done].
      intros [= <-]. constructor; [by apply Hex|].
      eapply (IH blocki); [lia|done|done|done].
    + intros Hcol. eapply (IH blocki); [lia|done|done|done].
Qed.

Lemma context_blocks_hunks_change context bs hs :
  alternating bs →
  ContextDiffer.context_blocks context bs = Ret hs →
  Forall (Exists (λ b, op b ≠ op_c)) hs.
Proof.
  intros Halt. unfold ContextDiffer.context_blocks.
  destruct bs as [|first blocki]; [by intros [= <-]|].
  case_bool_decide as Hop.
  - destruct blocki as [|next_delta blocki]; [by intros [= <-]|].
    destruct (ContextDiffer._trim context first dir_tail false) as [r|]; [|done].
    cbn [mbind exc_bind]. simpl in Halt. destruct Halt as [Hnext Halt].
    apply (collect_hunks_change _ (length blocki)); [done|tauto|done].
  - by apply (collect_hunks_change _ (length blocki)).
Qed.

(** ** No style of diff raises *)

Lemma mapM_Ret {X Y} (f : X → exc Y) (l : list X) :
  Forall (λ x, ∃ y, f x = Ret y) l → ∃ ys, mapM f l = Ret ys.
Proof.
  induction 1 as [|x l [y Hy] _ [ys IH]]; [by eexists|].
  cbn [mapM]. rewrite Hy. cbn [mbind exc_bind]. rewrite IH. by eexists.
Qed.

Lemma hunk_texts_Ret (h : list Delta) :
  h ≠ [] →
  (∃ s, ContextDiffer.hunk_text h = Ret s) ∧ (∃ s, UnifiedDiffer.hunk_text h = Ret s).
Proof.
  destruct h as [|b h]; [done|]. intros _. split; by eexists.
Qed.

Lemma line_hunks_Ret context a b ignore_case :
  (∃ out, ContextDiffer.get_diff context (Differ.__init__ a b Re.newline ignore_case) = Ret out) ∧
  (∃ out, UnifiedDiffer.get_diff context (Differ.__init__ a b Re.newline ignore_case) = Ret out) ∧
  (∃ out, NormalDiffer.get_diff (Differ.__init__ a b Re.newline ignore_case) = Ret out).
Proof.
  destruct (Differ_blocks_spec a b Re.newline ignore_case) as (bs & Hbs & _ & _ & Halt).
  destruct (context_blocks_total context bs Halt) as [hs Hhs].
  pose proof (context_blocks_hunks_change context bs hs Halt Hhs) as Hch.
  assert (Forall (λ h, h ≠ []) hs) as Hne.
  { eapply Forall_impl; [done|]. intros h Hex ->. by apply Exists_nil in Hex. }
  unfold ContextDiffer.get_diff, ContextDiffer.hunks, UnifiedDiffer.get_diff,
    UnifiedDiffer.hunks, NormalDiffer.get_diff, NormalDiffer.hunks.
  rewrite Hbs. cbn [mbind exc_bind fmap exc_fmap]. rewrite Hhs. cbn [mbind exc_bind].
  split_and!.
  - destruct (mapM_Ret ContextDiffer.hunk_text hs) as [ys ->]; [|by eexists].
    eapply Forall_impl; [done|]. intros h Hh. by apply hunk_texts_Ret.
  - destruct (mapM_Ret UnifiedDiffer.hunk_text hs) as [ys ->]; [|by eexists].
    eapply Forall_impl; [done|]. intros h Hh. by apply hunk_texts_Ret.
  - by eexists.
Qed.

Lemma LineDiffer_init_Ret a b boundary reverse ignore_case :
  ∃ a' b', LineDiffer.__init__ a b boundary reverse ignore_case
           = Ret (Differ.__init__ a' b' Re.newline ignore_case).
Proof.
  unfold LineDiffer.__init__. case_bool_decide; [|by eexists _, _].
  destruct (Differ_blocks_spec a b boundary ignore_case) as (bs & -> & _).
  cbn [mbind exc_bind]. by eexists _, _.
Qed.

Lemma diffs_Ret a b boundary context mk ignore_case reverse :
  (∃ out, unified_diff a b boundary context ignore_case reverse = Ret out) ∧
  (∃ out, context_diff a b boundary context ignore_case reverse = Ret out) ∧
  (∃ out, normal_diff a b boundary ignore_case reverse = Ret out) ∧
  (∃ out, word_diff a b boundary mk ignore_case = Ret out).
Proof.
  unfold unified_diff, context_diff, normal_diff, word_diff.
  destruct (LineDiffer_init_Ret a b boundary reverse ignore_case) as (a' & b' & ->).
  cbn [mbind exc_bind].
  destruct (line_hunks_Ret context a' b' ignore_case) as (Hc & Hu & Hn).
  split_and!; [done..|].
  unfold WordDiffer.get_diff, WordDiffer.hunks.
  destruct (Differ_blocks_spec a b boundary ignore_case) as (bs & -> & _).
  by eexists.
Qed.

(** ** Prefacing keeps the lines *)



(** ** Only the empty text has no token *)

Lemma Tokenizer_empty_iff s boundary :
  matches_ok boundary s = true → matches_ok boundary [] = true →
  Tokenizer.__init__ s boundary = [] ↔ s = [].
Proof.
  intros Hok Hok0. split.
  - intros Ht. destruct (decide (s = [])) as [|Hs]; [done|].
    by destruct (Tokenizer_not_empty s boundary Hok Hs).
  - intros ->. by apply Tokenizer_empty.
Qed.

(** ** What the matcher calls equal is equal *)

Section matcher_soundness.
Context `{Countable A}.
Variables a b : list A.

Lemma b2j_get_same i j :
  j ∈ difflib.b2j_get a b i → ∃ e, a !! i = Some e ∧ b !! j = Some e.
Proof.
  unfold difflib.b2j_get. destruct (a !! i) as [x|]; [|by intros ?%elem_of_nil].
  destruct (difflib.b2j b !! x) as [js|] eqn:Hjs; [|by intros ?%elem_of_nil].
  simpl. intros Hj. exists x. split; [done|].
  by apply (b2j_spec b x js Hjs).
Qed.

Lemma scan_row_sound i blo bhi j2len js : ∀ newj2len best,
  (∀ j, j ∈ js → ∃ e, a !! i = Some e ∧ b !! j = Some e) →
  row_sound a b i j2len →
  row_sound a b (S i) newj2len →
  block_sound a b best →
  row_sound a b (S i) (difflib.scan_row i blo bhi j2len js newj2len best).1 ∧
  block_sound a b (difflib.scan_row i blo bhi j2len js newj2len best).2.
Proof.
  induction js as [|j js IH]; intros newj2len best Hjs Hprev Hnew Hbest; simpl; [done|].
  assert (∀ j0, j0 ∈ js → ∃ e, a !! i = Some e ∧ b !! j0 = Some e) as Hjs'.
  { intros j0 Hj0. apply Hjs. by right. }
  destruct (j <? blo); [by apply IH|].
  destruct (bhi <=? j); [done|].
  set (v := difflib.j2lenget_pred j2len j).
  assert (v ≤ i ∧ v ≤ j ∧ block_sound a b (i - v, j - v, v)) as (Hvi & Hvj & Hrun).
  { unfold v, difflib.j2lenget_pred. destruct j as [|j'].
    { split_and!; [lia..|]. intros t Ht. simpl in Ht. lia. }
    destruct (j2len !! j') as [w|] eqn:Hw; simpl.
    - destruct (Hprev _ _ Hw) as (? & ? & Hs). split_and!; [lia..|].
      by replace (S j' - w) with (j' + 1 - w) by lia.
    - split_and!; [lia..|]. intros t Ht. simpl in Ht. lia. }
  assert (block_sound a b (i + 1 - (v + 1), j + 1 - (v + 1), v + 1)) as Hnewrun.
  { intros t Ht. cbn [fst snd] in *.
    destruct (decide (t < v)) as [Hlt|Hge].
    - destruct (Hrun t Hlt) as (e & Ha & Hb). cbn [fst snd] in Ha, Hb.
      exists e. split; [by replace (i + 1 - (v + 1) + t) with (i - v + t) by lia|
                        by replace (j + 1 - (v + 1) + t) with (j - v + t) by lia].
    - destruct (Hjs j ltac:(by left)) as (e & Ha & Hb). exists e.
      split; [by replace (i + 1 - (v + 1) + t) with i by lia|
              by replace (j + 1 - (v + 1) + t) with j by lia]. }
  apply IH; [done|done| |].
  - intros j0 w. rewrite lookup_insert. case_decide; [|by apply Hnew].
    intros [= <-]. subst j0. split_and!; [lia..|].
    by replace (S i - (v + 1)) with (i + 1 - (v + 1)) by lia.
  - by destruct (best.2 <? _).
Qed.

Lemma scan_rows_sound alo ahi blo bhi :
  block_sound a b (difflib.scan_rows a b alo ahi blo bhi).
Proof.
  unfold difflib.scan_rows.
  assert (∀ n start (st : gmap nat nat * difflib.block),
    row_sound a b start st.1 → block_sound a b st.2 →
    block_sound a b
      (foldl (λ st i, difflib.scan_row i blo bhi st.1 (difflib.b2j_get a b i) ∅ st.2)
             st (seq start n)).2) as Hfold.
  { induction n as [|n IH]; intros start st Hrow Hbest; simpl; [done|].
    destruct (scan_row_sound start blo bhi st.1 (difflib.b2j_get a b start) ∅ st.2)
      as [Hrow' Hbest']; [apply b2j_get_same|done| |done|].
    { intros j v. by rewrite lookup_empty. }
    by apply IH. }
  apply Hfold.
  - intros j v. simpl. by rewrite lookup_empty.
  - intros t Ht. simpl in Ht. lia.
Qed.

Lemma same_at_true want i j :
  difflib.same_at a b want i j = true → ∃ e, a !! i = Some e ∧ b !! j = Some e.
Proof.
  unfold difflib.same_at. destruct (a !! i) as [x|], (b !! j) as [y|]; try done.
  intros [_ Hxy%bool_decide_eq_true]%andb_true_iff. subst. by exists y.
Qed.

Lemma extend_left_sound want alo blo : ∀ besti bestj bestsize,
  block_sound a b (besti, bestj, bestsize) →
  block_sound a b (difflib.extend_left a b want alo blo besti bestj bestsize).
Proof.
  induction besti as [|i' IH]; intros bestj bestsize Hs; simpl; [done|].
  destruct bestj as [|j']; [done|].
  destruct (_ && _) eqn:Hc; [|done].
  apply andb_true_iff in Hc as [_ Hsame%same_at_true].
  apply IH. intros [|t] Ht; cbn [fst snd] in *.
  - by rewrite !Nat.add_0_r.
  - destruct (Hs t ltac:(cbn [fst snd]; lia)) as (e & Ha & Hb). cbn [fst snd] in Ha, Hb.
    exists e. by rewrite <- !Nat.add_succ_comm.
Qed.

Lemma extend_right_sound want ahi bhi besti bestj : ∀ fuel bestsize,
  block_sound a b (besti, bestj, bestsize) →
  block_sound a b
    (besti, bestj, difflib.extend_right a b want ahi bhi besti bestj fuel bestsize).
Proof.
  induction fuel as [|fuel IH]; intros bestsize Hs; simpl; [done|].
  destruct (_ && _) eqn:Hc; [|done].
  apply andb_true_iff in Hc as [_ Hsame%same_at_true].
  apply IH. intros t Ht. cbn [fst snd] in *.
  destruct (decide (t < bestsize)) as [Hlt|Hge]; [by apply (Hs t)|].
  by replace t with bestsize by lia.
Qed.

Lemma extend_sound want alo ahi blo bhi best :
  block_sound a b best →
  block_sound a b (difflib.extend a b want alo ahi blo bhi best).
Proof.
  intros Hs. unfold difflib.extend. destruct best as [[bi bj] bs].
  pose proof (extend_left_sound want alo blo bi bj bs Hs) as Hl.
  simpl. destruct (difflib.extend_left _ _ _ _ _ _ _ _) as [[i j] k].
  by apply extend_right_sound.
Qed.

Lemma find_longest_match_sound alo ahi blo bhi :
  block_sound a b (difflib.find_longest_match a b alo ahi blo bhi).
Proof.
  unfold difflib.find_longest_match.
  apply extend_sound, extend_sound, scan_rows_sound.
Qed.

Lemma match_regions_sound : ∀ fuel queue acc,
  Forall (block_sound a b) acc →
  Forall (block_sound a b) (difflib.match_regions a b fuel queue acc).2.
Proof.
  induction fuel as [|fuel IH]; intros queue acc Hacc; [done|].
  destruct queue as [|[[[alo ahi] blo] bhi] queue]; [done|].
  cbn [difflib.match_regions].
  pose proof (find_longest_match_sound alo ahi blo bhi) as Hs.
  destruct (difflib.find_longest_match a b alo ahi blo bhi) as [[i j] k].
  destruct (0 <? k); [|by apply IH].
  apply IH. apply Forall_app. split; [done|]. by constructor.
Qed.

Lemma merge_adjacent_sound mbs : ∀ i1 j1 k1,
  block_sound a b (i1, j1, k1) →
  Forall (block_sound a b) mbs →
  Forall (block_sound a b) (difflib.merge_adjacent i1 j1 k1 mbs).
Proof.
  induction mbs as [|[[i2 j2] k2] mbs IH]; intros i1 j1 k1 Hs Hall; simpl.
  { destruct (0 <? k1); by repeat constructor. }
  apply Forall_cons in Hall as [Hs2 Hall].
  destruct (_ && _) eqn:Hadj.
  - apply andb_true_iff in Hadj as [Hi%Nat.eqb_eq Hj%Nat.eqb_eq].
    apply IH; [|done]. intros t Ht. cbn [fst snd] in *.
    destruct (decide (t < k1)) as [Hlt|Hge]; [by apply (Hs t)|].
    destruct (Hs2 (t - k1) ltac:(cbn [fst snd]; lia)) as (e & Ha & Hb).
    cbn [fst snd] in Ha, Hb. exists e.
    split; [by replace (i1 + t) with (i2 + (t - k1)) by lia|
            by replace (j1 + t) with (j2 + (t - k1)) by lia].
  - apply Forall_app. split; [destruct (0 <? k1); by repeat constructor|].
    by apply IH.
Qed.

(** Every block [get_matching_blocks] returns pairs equal elements. *)
Lemma get_matching_blocks_sound :
  Forall (block_sound a b) (difflib.get_matching_blocks a b).
Proof.
  unfold difflib.get_matching_blocks. apply Forall_app. split.
  - apply merge_adjacent_sound.
    + intros t Ht. simpl in Ht. lia.
    + rewrite merge_sort_Permutation. by apply match_regions_sound.
  - constructor; [|done]. intros t Ht. simpl in Ht. lia.
Qed.

End matcher_soundness.

Lemma change_block_not_common lo ro i j :
  Forall (λ d, op d ≠ op_c) (Differ.change_block lo ro i j).
Proof.
  unfold Differ.change_block.
  destruct (truth_of lo), (truth_of ro); cbn [andb]; by repeat constructor.
Qed.

Lemma sound_slices (key : Token → str) xs ys i j n :
  block_sound (key <$> xs) (key <$> ys) (i, j, n) →
  key <$> Py.slice xs i (i + n) = key <$> Py.slice ys j (j + n).
Proof.
  intros Hs. apply list_eq. intros t. rewrite !list_lookup_fmap. unfold Py.slice.
  replace (i + n - i) with n by lia. replace (j + n - j) with n by lia.
  rewrite !lookup_take, !lookup_drop. case_decide as Hlt; [|done].
  destruct (Hs t Hlt) as (e & Ha & Hb). cbn [fst snd] in Ha, Hb.
  rewrite list_lookup_fmap in Ha, Hb. by rewrite Ha, Hb.
Qed.

Lemma blocks_from_common (key : Token → str) xs ys mbs : ∀ ci cj bs,
  Forall (block_sound (key <$> xs) (key <$> ys)) mbs →
  Differ.blocks_from xs ys ci cj mbs = Ret bs →
  Forall (λ d, op d = op_c → common_range key xs ys d) bs.
Proof.
  induction mbs as [|[[i j] n] mbs IH]; intros ci cj bs Hsound.
  { intros [= <-]. constructor. }
  apply Forall_cons in Hsound as [Hs Hsound].
  cbn [Differ.blocks_from].
  destruct (Tokenizer.join xs ci i) as [lo|]; [|done].
  destruct (Tokenizer.join ys cj j) as [ro|]; [|done].
  cbn [mbind exc_bind].
  destruct (if 0 <? n then Differ.common_block xs ys i j n else Ret []) as [cb|] eqn:Hcb;
    [|done].
  cbn [mbind exc_bind].
  destruct (Differ.blocks_from xs ys (i + n) (j + n) mbs) as [rest|] eqn:Hrest; [|done].
  cbn [mbind exc_bind]. intros [= <-].
  rewrite !Forall_app. split_and!.
  - eapply Forall_impl; [apply change_block_not_common|]. by intros d Hd ?.
  - destruct (0 <? n) eqn:Hn; [|simplify_eq; constructor].
    apply Nat.ltb_lt in Hn. unfold Differ.common_block in Hcb.
    destruct (Tokenizer.join xs i (i + n)) as [[tl|]|] eqn:Hl,
             (Tokenizer.join ys j (j + n)) as [[tr|]|] eqn:Hr; try done.
    injection Hcb as <-. constructor; [|done]. intros _.
    exists i, j, n. split_and!; [done..|]. by apply sound_slices.
  - by eapply IH.
Qed.

(** The blocks [Differ.blocks] labels common join runs of tokens whose
    words the matcher compared equal. *)
Lemma Differ_blocks_common a b boundary ignore_case bs :
  Differ.blocks (Differ.__init__ a b boundary ignore_case) = Ret bs →
  Forall (λ d, op d = op_c →
               common_range (λ t, (if ignore_case then Py.lower else id) (word t))
                 (Tokenizer.__init__ a boundary) (Tokenizer.__init__ b boundary) d) bs.
Proof.
  unfold Differ.blocks, Differ.__init__. cbn [atoks btoks seqm_a seqm_b].
  apply blocks_from_common, get_matching_blocks_sound.
Qed.

(** ** The lines of a hunk and its header *)






(** * The properties stated by the specification *)

(** C1. Reconstruction: for every input string and every boundary pattern
    whose matches are reported the way [re.finditer] reports them (inside
    the string, from left to right, without overlap; zero-width matches
    included), the concatenation of [word + sep] over the tokens of the
    tokenizer, in index order, is exactly the input string. *)
Theorem C1_tokenizer_reconstruction (s : str) (boundary : regex) :
  matches_ok boundary s = true →
  concat ((λ t, word t ++ sep t) <$> Tokenizer.__init__ s boundary) = s.
Proof. apply Tokenizer_reconstruction. Qed.

(** An instance with the empty pattern, all of whose matches are
    zero-width. *)
Lemma C1_witness :
  matches_ok Re.empty (lit "a b") = true ∧
  concat ((λ t, word t ++ sep t) <$> Tokenizer.__init__ (lit "a b") Re.empty) = lit "a b".
Proof. split; [reflexivity | apply C1_tokenizer_reconstruction; reflexivity]. Defined.

(** C2. Alignment coverage: for every pair of inputs and every boundary
    and case setting, [Differ.blocks] raises nothing, the lhs tokens of
    its blocks, concatenated in order, are the left input, and the rhs
    tokens are the right input. *)
Theorem C2_alignment_coverage (a b : str) (boundary : regex) (ignore_case : bool) :
  matches_ok boundary a = true →
  matches_ok boundary b = true →
  ∃ bs, Differ.blocks (Differ.__init__ a b boundary ignore_case) = Ret bs ∧
        concat ((λ d, word (lhs d) ++ sep (lhs d)) <$> bs) = a ∧
        concat ((λ d, word (rhs d) ++ sep (rhs d)) <$> bs) = b.
Proof.
  intros Ha Hb.
  destruct (Differ_blocks_spec a b boundary ignore_case) as (bs & Hbs & Hl & Hr & _).
  exists bs. split; [done|].
  rewrite !Tokenizer_reconstruction in * by done. done.
Qed.

(** An instance with case folding and uneven white space. *)
Lemma C2_witness :
  matches_ok Re.whitespace (lit "The quick  brown fox") = true ∧
  matches_ok Re.whitespace (lit "the quick red  fox ") = true ∧
  ∃ bs, Differ.blocks (Differ.__init__ (lit "The quick  brown fox") (lit "the quick red  fox ")
                         Re.whitespace true) = Ret bs ∧
        concat ((λ d, word (lhs d) ++ sep (lhs d)) <$> bs) = lit "The quick  brown fox" ∧
        concat ((λ d, word (rhs d) ++ sep (rhs d)) <$> bs) = lit "the quick red  fox ".
Proof.
  split; [reflexivity|]. split; [reflexivity|].
  apply C2_alignment_coverage; reflexivity.
Defined.

(** C3, as stated, fails: the word diff of a text against itself is the
    text, not the empty string; and the empty text aligns to no block at
    all rather than to one common block. *)
Lemma C3_counterexample :
  word_diff (lit "a") (lit "a") Re.whitespace default_markers false ≠ Ret [] ∧
  Differ.blocks (Differ.__init__ [] [] Re.whitespace false) = Ret [].
Proof. split; [by vm_compute | by vm_compute]. Qed.

(** C3, amended. Diffing [s] against itself under the same settings gives
    exactly one common block whose two sides both read as [s] when [s] is
    not empty, and no block when it is; the Normal, Context and Unified
    output is the empty string; the word diff output is [s] itself. *)
Theorem C3_self_diff (s : str) (boundary : regex) (ignore_case : bool) :
  matches_ok boundary s = true →
  (∃ bs, Differ.blocks (Differ.__init__ s s boundary ignore_case) = Ret bs ∧
         ((s = [] ∧ bs = []) ∨
          (s ≠ [] ∧ ∃ t, bs = [mkDelta op_c t t] ∧ word t ++ sep t = s))) ∧
  (∀ reverse, normal_diff s s boundary ignore_case reverse = Ret []) ∧
  (∀ context reverse, context_diff s s boundary context ignore_case reverse = Ret []) ∧
  (∀ context reverse, unified_diff s s boundary context ignore_case reverse = Ret []) ∧
  (∀ mk, word_diff s s boundary mk ignore_case = Ret s).
Proof.
  intros Hok.
  pose proof (Tokenizer_reconstruction s boundary Hok) as Hrec.
  destruct (Differ_blocks_self s boundary ignore_case) as (bs & Hbs & Hshape).
  assert ((s = [] ∧ bs = []) ∨ (s ≠ [] ∧ ∃ t, bs = [mkDelta op_c t t] ∧ word t ++ sep t = s))
    as Hshape'.
  { destruct Hshape as [[Hnil ->]|(t & -> & Hne & Ht)].
    - left. by rewrite Hnil in Hrec.
    - right. split; [|exists t; by rewrite <- Hrec, <- Ht].
      intros ->. by apply Hne, Tokenizer_empty. }
  split; [by exists bs|].
  assert (∀ reverse, ∃ self bs', LineDiffer.__init__ s s boundary reverse ignore_case = Ret self ∧
            Differ.blocks self = Ret bs' ∧
            (bs' = [] ∨ ∃ t1 t2, bs' = [mkDelta op_c t1 t2])) as Hline.
  { intros reverse.
    destruct (LineDiffer_init_self s boundary reverse ignore_case) as [s' ->].
    destruct (Differ_blocks_self s' Re.newline ignore_case) as (bs' & Hbs' & Hs').
    eexists _, bs'. split_and!; [done..|].
    destruct Hs' as [[_ ->]|(t & -> & _)]; [by left|right; by eexists _, _]. }
  split_and!.
  - intros reverse. destruct (Hline reverse) as (self & bs' & Hinit & Hbs' & Hs').
    unfold normal_diff. rewrite Hinit. by apply (line_styles_empty self bs').
  - intros context reverse. destruct (Hline reverse) as (self & bs' & Hinit & Hbs' & Hs').
    unfold context_diff. rewrite Hinit. by apply (line_styles_empty self bs').
  - intros context reverse. destruct (Hline reverse) as (self & bs' & Hinit & Hbs' & Hs').
    unfold unified_diff. rewrite Hinit. by apply (line_styles_empty self bs').
  - intros mk. unfold word_diff, WordDiffer.get_diff, WordDiffer.hunks. rewrite Hbs.
    destruct Hshape' as [[-> ->]|(_ & t & -> & Ht)]; [done|].
    cbn. by rewrite app_nil_r, Ht.
Qed.

(** An instance. *)
Lemma C3_witness :
  matches_ok Re.whitespace (lit "foo bar") = true ∧
  (∃ bs, Differ.blocks (Differ.__init__ (lit "foo bar") (lit "foo bar") Re.whitespace false)
         = Ret bs ∧
         ((lit "foo bar" = [] ∧ bs = []) ∨
          (lit "foo bar" ≠ [] ∧ ∃ t, bs = [mkDelta op_c t t] ∧ word t ++ sep t = lit "foo bar"))) ∧
  (∀ reverse, normal_diff (lit "foo bar") (lit "foo bar") Re.whitespace false reverse = Ret []) ∧
  (∀ context reverse,
     context_diff (lit "foo bar") (lit "foo bar") Re.whitespace context false reverse = Ret []) ∧
  (∀ context reverse,
     unified_diff (lit "foo bar") (lit "foo bar") Re.whitespace context false reverse = Ret []) ∧
  (∀ mk, word_diff (lit "foo bar") (lit "foo bar") Re.whitespace mk false = Ret (lit "foo bar")).
Proof. split; [reflexivity | apply C3_self_diff; reflexivity]. Defined.

(** C4, as stated, fails: the matcher breaks ties by the left sequence, so
    the alignment of ["b a"] against ["a b"] is not the mirror image of
    the alignment of ["a b"] against ["b a"]. *)
Lemma C4_counterexample :
  Differ.blocks (Differ.__init__ (lit "b a") (lit "a b") Re.whitespace false) ≠
  swap_alignment <$> Differ.blocks (Differ.__init__ (lit "a b") (lit "b a") Re.whitespace false).
Proof. by vm_compute. Qed.

(** C4, amended. [Differ.blocks] treats its two sides alike: whenever the
    matching blocks the matcher finds for (b, a) are the mirror image of
    those it finds for (a, b), exchanging lhs and rhs in every block of
    the alignment of (a, b), and the labels left-only and right-only,
    gives exactly the alignment of (b, a). *)
Theorem C4_symmetry_up_to_matcher (a b : str) (boundary : regex) (ignore_case : bool) :
  difflib.get_matching_blocks
    (seqm_a (Differ.__init__ b a boundary ignore_case))
    (seqm_b (Differ.__init__ b a boundary ignore_case)) =
  swap_block <$> difflib.get_matching_blocks
    (seqm_a (Differ.__init__ a b boundary ignore_case))
    (seqm_b (Differ.__init__ a b boundary ignore_case)) →
  Differ.blocks (Differ.__init__ b a boundary ignore_case) =
  swap_alignment <$> Differ.blocks (Differ.__init__ a b boundary ignore_case).
Proof.
  intros Hmirror.
  destruct (Differ_blocks_spec a b boundary ignore_case) as (bs & Hbs & _).
  rewrite Hbs. unfold Differ.blocks in *. rewrite Hmirror.
  by apply blocks_from_swap.
Qed.

(** An instance: one word replaced between two common ones. *)
Lemma C4_witness :
  difflib.get_matching_blocks
    (seqm_a (Differ.__init__ (lit "a x c") (lit "a b c") Re.whitespace false))
    (seqm_b (Differ.__init__ (lit "a x c") (lit "a b c") Re.whitespace false)) =
  swap_block <$> difflib.get_matching_blocks
    (seqm_a (Differ.__init__ (lit "a b c") (lit "a x c") Re.whitespace false))
    (seqm_b (Differ.__init__ (lit "a b c") (lit "a x c") Re.whitespace false)) ∧
  Differ.blocks (Differ.__init__ (lit "a x c") (lit "a b c") Re.whitespace false) =
  swap_alignment <$>
    Differ.blocks (Differ.__init__ (lit "a b c") (lit "a x c") Re.whitespace false).
Proof.
  split; [by vm_compute | apply C4_symmetry_up_to_matcher; by vm_compute].
Defined.

(** C6. The unified diff with one line of context of the five lines 1 2 3
    4 5 against 1 2 X 4 5 is exactly one hunk: the header
    [@@ -2,3 +2,3 @@] and the four lines [ 2], [-3], [+X], [ 4]. *)
Theorem C6_unified_scenario :
  (LineDiffer.__init__ (lines ["1"; "2"; "3"; "4"; "5"]) (lines ["1"; "2"; "X"; "4"; "5"])
                       Re.newline false false
   ≫= UnifiedDiffer.hunks 1) =
  Ret [lines ["@@ -2,3 +2,3 @@"; " 2"; "-3"; "+X"; " 4"]].
Proof. by vm_compute. Qed.

(** C7 fails on the code. The Normal renderer tests [b.lhs] and [b.rhs]
    for truth, and under Python 3 every token is true, also the empty one
    that stands for the missing side: deleting the line [b] renders the
    separator [---] and a [> ] line, where the specification wants neither. *)
Theorem C7_left_only_hunk_has_separator :
  normal_diff (lines ["a"; "b"]) (lines ["a"]) Re.newline false false =
  Ret (lines ["2d1"; "< b"; "---"; "> "; "\ No newline at end of file"]).
Proof. by vm_compute. Qed.

(** C8 fails on the code. The token that [blocks] manufactures for a
    missing side has an empty word and an empty separator, and
    [__nonzero__] calls it false, but [__nonzero__] is not what Python 3
    consults: the truth value of the token is that of a three-field tuple,
    true. *)
Theorem C8_placeholder_is_true :
  Token.__nonzero__ (or_placeholder None 0) = false ∧
  word (or_placeholder None 0) = [] ∧ sep (or_placeholder None 0) = [] ∧
  Token.truth (or_placeholder None 0) = true.
Proof. done. Qed.

(** C9. In every block sequence [Differ.blocks] generates, common and
    change blocks strictly alternate: no two consecutive blocks are both
    common, and no two are both changes. The hunk assembler of the Context
    and Unified styles relies on it: on an alternating sequence it never
    fails, while two changes in a row make it hand a change block to
    [_trim], whose assertion fails. *)
Theorem C9_blocks_alternate :
  (∀ a b boundary ignore_case,
     ∃ bs, Differ.blocks (Differ.__init__ a b boundary ignore_case) = Ret bs ∧
           alternating bs) ∧
  (∀ context bs,
     alternating bs → ∃ hs, ContextDiffer.context_blocks context bs = Ret hs) ∧
  (∀ context b1 b2 rest,
     op b1 ≠ op_c → op b2 ≠ op_c →
     ContextDiffer.context_blocks context (b1 :: b2 :: rest) = Raise AssertionError).
Proof.
  split_and!.
  - intros a b boundary ignore_case.
    destruct (Differ_blocks_spec a b boundary ignore_case) as (bs & Hbs & _ & _ & Halt).
    by exists bs.
  - intros context bs. apply context_blocks_total.
  - intros context b1 b2 rest. apply context_blocks_two_changes.
Qed.

(** An instance of each of the three parts. *)
Lemma C9_witness :
  (∃ bs, Differ.blocks (Differ.__init__ (lines ["1"; "2"; "3"]) (lines ["1"; "X"; "3"; "4"])
                          Re.newline false) = Ret bs ∧ alternating bs) ∧
  (alternating [mkDelta op_d (mkToken (lit "x") [nl] 0) (mkToken (lit "y") [nl] 0);
                mkDelta op_c (mkToken (lit "z") [nl] 1) (mkToken (lit "z") [nl] 1)] ∧
   ∃ hs, ContextDiffer.context_blocks 3
           [mkDelta op_d (mkToken (lit "x") [nl] 0) (mkToken (lit "y") [nl] 0);
            mkDelta op_c (mkToken (lit "z") [nl] 1) (mkToken (lit "z") [nl] 1)] = Ret hs) ∧
  (op_l ≠ op_c ∧ op_r ≠ op_c ∧
   ContextDiffer.context_blocks 3
     [mkDelta op_l (mkToken (lit "x") [nl] 0) (mkToken [] [] 0);
      mkDelta op_r (mkToken [] [] 0) (mkToken (lit "y") [nl] 0)] = Raise AssertionError).
Proof.
  destruct C9_blocks_alternate as (Hblocks & Htotal & Hraise).
  split_and!.
  - apply Hblocks.
  - simpl. split; [|done]. split; [done|]. intros Hn. by destruct Hn.
  - apply Htotal. simpl. split; [|done]. split; [done|]. intros Hn. by destruct Hn.
  - done.
  - done.
  - by apply Hraise.
Defined.

(** C10. For a common block the word renderer emits the left side's
    text, [lhs.word] followed by [lhs.sep]. Consequently, when the two
    inputs have the same words and differ only in their separators, the
    word diff is the old (left) input, separators included. *)
Theorem C10_word_diff_keeps_left_separators :
  (∀ mk d, op d = op_c → WordDiffer.hunk_text mk d = word (lhs d) ++ sep (lhs d)) ∧
  (∀ a b boundary mk ignore_case,
     matches_ok boundary a = true →
     word <$> Tokenizer.__init__ a boundary = word <$> Tokenizer.__init__ b boundary →
     word_diff a b boundary mk ignore_case = Ret a).
Proof.
  split.
  - intros mk d Hop. unfold WordDiffer.hunk_text. by rewrite Hop.
  - intros a b boundary mk ignore_case Hok Hwords.
    pose proof (Tokenizer_reconstruction a boundary Hok) as Hrec.
    destruct (Differ_blocks_same_words a b boundary ignore_case Hwords)
      as (bs & Hbs & [[Hnil ->]|(ta & tb & -> & _ & _ & _ & Hta & _)]).
    + unfold word_diff, WordDiffer.get_diff, WordDiffer.hunks. rewrite Hbs.
      rewrite Hnil in Hrec. by rewrite <- Hrec.
    + unfold word_diff, WordDiffer.get_diff, WordDiffer.hunks. rewrite Hbs.
      cbn. by rewrite app_nil_r, <- Hrec, <- Hta.
Qed.

(** An instance: the same three words, spaced differently. *)
Lemma C10_witness :
  (op (mkDelta op_c (mkToken (lit "a") (lit " ") 0) (mkToken (lit "a") (lit "  ") 0)) = op_c ∧
   WordDiffer.hunk_text default_markers
     (mkDelta op_c (mkToken (lit "a") (lit " ") 0) (mkToken (lit "a") (lit "  ") 0)) = lit "a ") ∧
  (matches_ok Re.whitespace (lit "a b  c") = true ∧
   word <$> Tokenizer.__init__ (lit "a b  c") Re.whitespace =
     word <$> Tokenizer.__init__ (lit "a   b c ") Re.whitespace ∧
   word_diff (lit "a b  c") (lit "a   b c ") Re.whitespace default_markers false =
     Ret (lit "a b  c")).
Proof.
  destruct C10_word_diff_keeps_left_separators as [Hcommon Hsame].
  split_and!.
  - done.
  - by apply Hcommon.
  - reflexivity.
  - reflexivity.
  - apply Hsame; reflexivity.
Defined.

(** C5 fails on the code for the context size 0. The common block of three
    lines between the two changes below is longer than [2 * 0] lines and
    does end the first hunk, but what the hunk keeps of it is a token with
    an empty word and the separator of the block, which is one (empty)
    line and not none; and the next hunk opens with all three lines of the
    block, since the slice [[-0:]] is the whole list. *)
Theorem C5_zero_context_keeps_lines :
  let d1 := mkDelta op_d (mkToken (lit "x") [nl] 0) (mkToken (lit "X") [nl] 0) in
  let c := mkDelta op_c (mkToken (Py.join_nl [lit "1"; lit "2"; lit "3"]) [nl] 1)
                        (mkToken (Py.join_nl [lit "1"; lit "2"; lit "3"]) [nl] 1) in
  let d2 := mkDelta op_d (mkToken (lit "y") [nl] 4) (mkToken (lit "Y") [nl] 4) in
  (LineDiffer.__init__ (lines ["x"; "1"; "2"; "3"; "y"]) (lines ["X"; "1"; "2"; "3"; "Y"])
                       Re.newline false false
   ≫= Differ.blocks) = Ret [d1; c; d2] ∧
  countlines (Token.__str__ (lhs c)) = 3 ∧
  ∃ kept opening,
    ContextDiffer.context_blocks 0 [d1; c; d2] = Ret [[d1; kept]; [opening; d2]] ∧
    countlines (Token.__str__ (lhs kept)) = 1 ∧
    countlines (Token.__str__ (lhs opening)) = 3.
Proof.
  split_and!; [by vm_compute..|].
  eexists _, _. split_and!; by vm_compute.
Qed.

(** * What else the code guarantees *)

(** Instances are closed by evaluation: [exists_result e] gives the value
    [e] returns as the witness of an existential. *)
Ltac exists_result e :=
  let r := eval vm_compute in e in
  match r with
  | Ret ?x => exists x
  end.

(** X1. [isplit] always yields an odd number of pieces, whatever the
    pattern finds; and when the matches are those a regular expression
    engine reports (in order, inside the string, not overlapping), the
    pieces, contents and separators together, are the string cut up:
    concatenated they give it back. *)
Theorem X1_isplit_pieces (boundary : regex) (s : str) :
  length (isplit boundary s) mod 2 = 1 ∧
  (matches_ok boundary s = true → concat (isplit boundary s) = s).
Proof.
  split; [apply isplit_loop_odd|]. intros Hok. unfold isplit.
  rewrite isplit_loop_concat; [|done|lia]. apply drop_0.
Qed.

(** An instance with word boundaries, all of whose matches are empty. *)
Lemma X1_witness :
  matches_ok Re.word_boundary (lit "foo  bar baz") = true ∧
  length (isplit Re.word_boundary (lit "foo  bar baz")) mod 2 = 1 ∧
  concat (isplit Re.word_boundary (lit "foo  bar baz")) = lit "foo  bar baz".
Proof.
  destruct (X1_isplit_pieces Re.word_boundary (lit "foo  bar baz")) as [Hodd Hwhole].
  split; [reflexivity|]. split; [exact Hodd | apply Hwhole; reflexivity].
Defined.

(** X2. The tokens of a tokenizer are numbered from zero in the order
    of the list: the token at position [k] has [idx = k]. *)
Theorem X2_tokens_numbered (s : str) (boundary : regex) (k : nat) (t : Token) :
  Tokenizer.__init__ s boundary !! k = Some t → idx t = Z.of_nat k.
Proof. apply Tokenizer_indexed. Qed.

(** An instance: the second of three words. *)
Lemma X2_witness :
  Tokenizer.__init__ (lit "a b c") Re.whitespace !! 1 = Some (mkToken (lit "b") (lit " ") 1) ∧
  idx (mkToken (lit "b") (lit " ") 1) = Z.of_nat 1.
Proof.
  split; [reflexivity|].
  apply (X2_tokens_numbered (lit "a b c") Re.whitespace 1). reflexivity.
Defined.

(** X3. No token of a tokenizer is empty: each has a word or a
    separator, so each passes the test [Token.__nonzero__] declares. *)
Theorem X3_no_empty_token (s : str) (boundary : regex) :
  matches_ok boundary s = true →
  Forall (λ t, Token.__nonzero__ t = true) (Tokenizer.__init__ s boundary).
Proof. apply Tokenizer_tokens_nonempty. Qed.

(** An instance where the text begins and ends with a separator. *)
Lemma X3_witness :
  matches_ok Re.whitespace (lit " a  b ") = true ∧
  Forall (λ t, Token.__nonzero__ t = true) (Tokenizer.__init__ (lit " a  b ") Re.whitespace).
Proof. split; [reflexivity | apply X3_no_empty_token; reflexivity]. Defined.

(** X4. [countlines] and the line tokenizer agree: a text has as many
    lines as splitting it at line feeds gives tokens. *)
Theorem X4_countlines_counts_line_tokens (s : str) :
  countlines s = length (Tokenizer.__init__ s Re.newline).
Proof. symmetry. apply newline_tokens_countlines. Qed.

(** X5. On the tokens of a tokenizer, [join(first, limit)] fails its
    assertions exactly when the range is not one of the token list,
    that is unless [first <= limit <= len(tokens)]; and it never raises
    an [IndexError]. *)
Theorem X5_join_assertion (s : str) (boundary : regex) (first limit : nat) :
  (Tokenizer.join (Tokenizer.__init__ s boundary) first limit = Raise AssertionError ↔
   ¬ (first ≤ limit ∧ limit ≤ length (Tokenizer.__init__ s boundary))) ∧
  Tokenizer.join (Tokenizer.__init__ s boundary) first limit ≠ Raise IndexError.
Proof.
  split; [|apply join_not_IndexError]. split; [|apply join_invalid].
  intros Hraise [Hfl Hll].
  destruct (join_spec (Tokenizer.__init__ s boundary) first limit) as (r & Hr & _);
    [apply Tokenizer_indexed|done|done|].
  rewrite Hr in Hraise. discriminate.
Qed.

(** The calls the tests expect to fail whose arguments are natural
    numbers, and one call that succeeds. *)
Lemma X5_witness :
  Tokenizer.join (Tokenizer.__init__ (lit "a b c") Re.whitespace) 4 4 = Raise AssertionError ∧
  Tokenizer.join (Tokenizer.__init__ (lit "a b c") Re.whitespace) 3 5 = Raise AssertionError ∧
  Tokenizer.join (Tokenizer.__init__ (lit "a b c") Re.whitespace) 2 1 = Raise AssertionError ∧
  Tokenizer.join (Tokenizer.__init__ (lit "a b c") Re.whitespace) 1 3 ≠ Raise AssertionError.
Proof.
  split_and!.
  - apply (X5_join_assertion (lit "a b c") Re.whitespace 4 4). vm_compute. lia.
  - apply (X5_join_assertion (lit "a b c") Re.whitespace 3 5). vm_compute. lia.
  - apply (X5_join_assertion (lit "a b c") Re.whitespace 2 1). vm_compute. lia.
  - intros Hraise.
    apply (X5_join_assertion (lit "a b c") Re.whitespace 1 3) in Hraise.
    apply Hraise. vm_compute. lia.
Defined.

(** X6. For a range of the token list, [join(first, limit)] returns
    [None] exactly when the range is empty; otherwise it returns one
    token that is numbered [first], whose text is the text of the tokens
    of the range in order, and whose separator is the separator of the
    last of them. *)
Theorem X6_join_result (s : str) (boundary : regex) (first limit : nat) :
  first ≤ limit → limit ≤ length (Tokenizer.__init__ s boundary) →
  ∃ r, Tokenizer.join (Tokenizer.__init__ s boundary) first limit = Ret r ∧
       (r = None ↔ first = limit) ∧
       ∀ t, r = Some t →
         idx t = Z.of_nat first ∧
         word t ++ sep t =
           concat ((λ u, word u ++ sep u) <$>
                   Py.slice (Tokenizer.__init__ s boundary) first limit) ∧
         ∀ tl, Tokenizer.__init__ s boundary !! (limit - 1) = Some tl → sep t = sep tl.
Proof.
  intros Hfl Hll.
  destruct (join_spec (Tokenizer.__init__ s boundary) first limit)
    as (r & Hr & Htext & Hnone & Hidx); [apply Tokenizer_indexed|done|done|].
  exists r. split_and!; [done..|]. intros t ->. split_and!.
  - by apply Hidx.
  - exact Htext.
  - intros tl Htl. by eapply join_sep.
Qed.

(** An instance: the last two of three words. *)
Lemma X6_witness :
  1 ≤ 3 ∧ 3 ≤ length (Tokenizer.__init__ (lit "a b c") Re.whitespace) ∧
  ∃ r, Tokenizer.join (Tokenizer.__init__ (lit "a b c") Re.whitespace) 1 3 = Ret r ∧
       (r = None ↔ 1 = 3) ∧
       ∀ t, r = Some t →
         idx t = Z.of_nat 1 ∧
         word t ++ sep t =
           concat ((λ u, word u ++ sep u) <$>
                   Py.slice (Tokenizer.__init__ (lit "a b c") Re.whitespace) 1 3) ∧
         ∀ tl, Tokenizer.__init__ (lit "a b c") Re.whitespace !! (3 - 1) = Some tl →
               sep t = sep tl.
Proof.
  split; [lia|]. split; [vm_compute; lia|].
  apply (X6_join_result (lit "a b c") Re.whitespace 1 3); [lia | vm_compute; lia].
Defined.

(** X7. Joining composes: the text of [join(first, mid)] followed by
    the text of [join(mid, limit)] is the text of [join(first, limit)],
    where [None] stands for no text. *)
Theorem X7_join_composes (s : str) (boundary : regex) (first mid limit : nat) :
  first ≤ mid → mid ≤ limit → limit ≤ length (Tokenizer.__init__ s boundary) →
  ∃ r1 r2 r,
    Tokenizer.join (Tokenizer.__init__ s boundary) first mid = Ret r1 ∧
    Tokenizer.join (Tokenizer.__init__ s boundary) mid limit = Ret r2 ∧
    Tokenizer.join (Tokenizer.__init__ s boundary) first limit = Ret r ∧
    text_of r1 ++ text_of r2 = text_of r.
Proof. intros Hfm Hml Hll. apply join_compose; [apply Tokenizer_indexed|done..]. Qed.

(** An instance where the second range is empty. *)
Lemma X7_witness :
  0 ≤ 2 ∧ 2 ≤ 2 ∧ 2 ≤ length (Tokenizer.__init__ (lit "a b c") Re.whitespace) ∧
  ∃ r1 r2 r,
    Tokenizer.join (Tokenizer.__init__ (lit "a b c") Re.whitespace) 0 2 = Ret r1 ∧
    Tokenizer.join (Tokenizer.__init__ (lit "a b c") Re.whitespace) 2 2 = Ret r2 ∧
    Tokenizer.join (Tokenizer.__init__ (lit "a b c") Re.whitespace) 0 2 = Ret r ∧
    text_of r1 ++ text_of r2 = text_of r.
Proof.
  split; [lia|]. split; [lia|]. split; [vm_compute; lia|].
  apply (X7_join_composes (lit "a b c") Re.whitespace 0 2 2); [lia | lia | vm_compute; lia].
Defined.



(** X9. What [_addnl] returns always ends with a line feed, and
    applying [_addnl] again changes nothing. *)
Theorem X9_addnl (s : str) :
  Py.endswith_nl (LineDiffer._addnl s) = true ∧
  LineDiffer._addnl (LineDiffer._addnl s) = LineDiffer._addnl s.
Proof. split; [apply _addnl_ends_with_newline | apply _addnl_idempotent]. Qed.



(** X11. A normal diff is the empty string exactly when the alignment
    has no block but common ones; otherwise something is printed. *)
Theorem X11_normal_diff_empty_iff (self : differ) (bs : list Delta) :
  Differ.blocks self = Ret bs →
  ∃ out, NormalDiffer.get_diff self = Ret out ∧
         (out = [] ↔ Forall (λ b, op b = op_c) bs).
Proof.
  intros Hbs. unfold NormalDiffer.get_diff, NormalDiffer.hunks. rewrite Hbs.
  eexists. split; [reflexivity|]. apply NormalDiffer_hunks_of_empty.
Qed.

(** An instance: one line replaced, so the diff is not empty. *)
Lemma X11_witness :
  ∃ bs out,
    Differ.blocks (Differ.__init__ (lines ["1"; "2"]) (lines ["1"; "X"]) Re.newline false)
      = Ret bs ∧
    NormalDiffer.get_diff (Differ.__init__ (lines ["1"; "2"]) (lines ["1"; "X"]) Re.newline false)
      = Ret out ∧
    (out = [] ↔ Forall (λ b, op b = op_c) bs).
Proof.
  exists_result
    (Differ.blocks (Differ.__init__ (lines ["1"; "2"]) (lines ["1"; "X"]) Re.newline false)).
  assert (Differ.blocks (Differ.__init__ (lines ["1"; "2"]) (lines ["1"; "X"]) Re.newline false)
          = Ret [mkDelta op_c (mkToken (lit "1") [nl] 0) (mkToken (lit "1") [nl] 0);
                 mkDelta op_d (mkToken (lit "2") [nl] 1) (mkToken (lit "X") [nl] 1)]) as Hbs
    by (vm_compute; reflexivity).
  destruct (X11_normal_diff_empty_iff _ _ Hbs) as (out & Hout & Hiff).
  exists out. split; [exact Hbs|]. split; [exact Hout | exact Hiff].
Defined.

(** X12. Cutting an alignment into hunks neither loses nor repeats nor
    reorders a change: the blocks that are not common, read through the
    hunks in order, are those of the alignment. *)
Theorem X12_hunks_keep_changes (context : nat) (bs : list Delta) (hs : list (list Delta)) :
  ContextDiffer.context_blocks context bs = Ret hs →
  filter (λ b, op b ≠ op_c) (concat hs) = filter (λ b, op b ≠ op_c) bs.
Proof. apply context_blocks_changes. Qed.

(** An instance: two changes four lines apart fall into two hunks with
    one line of context. *)
Lemma X12_witness :
  ∃ hs,
    ContextDiffer.context_blocks 1
      [mkDelta op_l (mkToken (lit "x") [nl] 0) (mkToken [] [] (-1));
       mkDelta op_c (mkToken (lit "1" ++ [nl] ++ lit "2" ++ [nl] ++ lit "3" ++ [nl] ++ lit "4")
                             [nl] 1)
                    (mkToken (lit "1" ++ [nl] ++ lit "2" ++ [nl] ++ lit "3" ++ [nl] ++ lit "4")
                             [nl] 0);
       mkDelta op_r (mkToken [] [] 4) (mkToken (lit "y") [nl] 4)] = Ret hs ∧
    length hs = 2 ∧
    filter (λ b, op b ≠ op_c) (concat hs) =
    filter (λ b, op b ≠ op_c)
      [mkDelta op_l (mkToken (lit "x") [nl] 0) (mkToken [] [] (-1));
       mkDelta op_c (mkToken (lit "1" ++ [nl] ++ lit "2" ++ [nl] ++ lit "3" ++ [nl] ++ lit "4")
                             [nl] 1)
                    (mkToken (lit "1" ++ [nl] ++ lit "2" ++ [nl] ++ lit "3" ++ [nl] ++ lit "4")
                             [nl] 0);
       mkDelta op_r (mkToken [] [] 4) (mkToken (lit "y") [nl] 4)].
Proof.
  exists_result
    (ContextDiffer.context_blocks 1
      [mkDelta op_l (mkToken (lit "x") [nl] 0) (mkToken [] [] (-1));
       mkDelta op_c (mkToken (lit "1" ++ [nl] ++ lit "2" ++ [nl] ++ lit "3" ++ [nl] ++ lit "4")
                             [nl] 1)
                    (mkToken (lit "1" ++ [nl] ++ lit "2" ++ [nl] ++ lit "3" ++ [nl] ++ lit "4")
                             [nl] 0);
       mkDelta op_r (mkToken [] [] 4) (mkToken (lit "y") [nl] 4)]).
  split; [vm_compute; reflexivity|]. split; [reflexivity|].
  apply (X12_hunks_keep_changes 1). vm_compute; reflexivity.
Defined.

(** X13. Every hunk shows a change: cut from an alignment whose blocks
    alternate between common and not, as [Differ.blocks] builds them, no
    hunk consists of context only; in particular no hunk is empty. *)
Theorem X13_every_hunk_has_change (context : nat) (bs : list Delta) (hs : list (list Delta)) :
  alternating bs →
  ContextDiffer.context_blocks context bs = Ret hs →
  Forall (λ h, ∃ b, b ∈ h ∧ op b ≠ op_c) hs.
Proof.
  intros Halt Hhs. eapply Forall_impl; [by eapply context_blocks_hunks_change|].
  intros h Hex. by apply Exists_exists in Hex.
Qed.

(** An instance: the alignment of two texts of four lines. *)
Lemma X13_witness :
  ∃ bs hs,
    Differ.blocks (Differ.__init__ (lines ["a"; "1"; "2"; "3"]) (lines ["b"; "1"; "2"; "c"])
                     Re.newline false) = Ret bs ∧
    alternating bs ∧
    ContextDiffer.context_blocks 0 bs = Ret hs ∧
    Forall (λ h, ∃ b, b ∈ h ∧ op b ≠ op_c) hs.
Proof.
  exists_result
    (Differ.blocks (Differ.__init__ (lines ["a"; "1"; "2"; "3"]) (lines ["b"; "1"; "2"; "c"])
                      Re.newline false)).
  exists_result
    (ContextDiffer.context_blocks 0
       [mkDelta op_d (mkToken (lit "a") [nl] 0) (mkToken (lit "b") [nl] 0);
        mkDelta op_c (mkToken (lit "1" ++ [nl] ++ lit "2") [nl] 1)
                     (mkToken (lit "1" ++ [nl] ++ lit "2") [nl] 1);
        mkDelta op_d (mkToken (lit "3") [nl] 3) (mkToken (lit "c") [nl] 3)]).
  split; [vm_compute; reflexivity|].
  assert (alternating
    [mkDelta op_d (mkToken (lit "a") [nl] 0) (mkToken (lit "b") [nl] 0);
     mkDelta op_c (mkToken (lit "1" ++ [nl] ++ lit "2") [nl] 1)
                  (mkToken (lit "1" ++ [nl] ++ lit "2") [nl] 1);
     mkDelta op_d (mkToken (lit "3") [nl] 3) (mkToken (lit "c") [nl] 3)]) as Halt.
  { simpl. split; [split; [discriminate | intros Hc; by destruct Hc]|].
    split; [split; [discriminate | done]|done]. }
  split; [exact Halt|]. split; [vm_compute; reflexivity|].
  apply (X13_every_hunk_has_change 0 _ _ Halt). vm_compute; reflexivity.
Defined.



(** X15. The label of a block tells which side is absent: in a block
    labelled as unique to the left the right token has neither word nor
    separator, and in a block labelled as unique to the right the left
    token has neither. *)
Theorem X15_block_labels (a b : str) (boundary : regex) (ignore_case : bool)
    (bs : list Delta) :
  Differ.blocks (Differ.__init__ a b boundary ignore_case) = Ret bs →
  Forall (λ d, (op d = op_l → word (rhs d) = [] ∧ sep (rhs d) = []) ∧
               (op d = op_r → word (lhs d) = [] ∧ sep (lhs d) = [])) bs.
Proof.
  intros Hbs. eapply Forall_impl; [by eapply Differ_blocks_labelled|].
  intros d Hd. unfold well_labelled in Hd. split; intros Hop; by rewrite Hop in Hd.
Qed.

(** An instance with a word removed and a word added. *)
Lemma X15_witness :
  ∃ bs,
    Differ.blocks (Differ.__init__ (lit "a b c") (lit "b c d") Re.whitespace false) = Ret bs ∧
    Forall (λ d, (op d = op_l → word (rhs d) = [] ∧ sep (rhs d) = []) ∧
                 (op d = op_r → word (lhs d) = [] ∧ sep (lhs d) = [])) bs.
Proof.
  exists_result
    (Differ.blocks (Differ.__init__ (lit "a b c") (lit "b c d") Re.whitespace false)).
  split; [vm_compute; reflexivity|].
  apply (X15_block_labels (lit "a b c") (lit "b c d") Re.whitespace false).
  vm_compute; reflexivity.
Defined.



(** X17. A line differ over any boundary diffs the old text itself
    against a respaced new text and, with [reverse], a respaced old
    text against the new text itself: realigning the texts on the
    boundary never alters the side whose spacing is preferred. *)
Theorem X17_line_differ_keeps_side (a b : str) (boundary : regex) (ignore_case : bool) :
  (matches_ok boundary a = true →
   ∃ b', LineDiffer.__init__ a b boundary false ignore_case
         = Ret (Differ.__init__ a b' Re.newline ignore_case)) ∧
  (matches_ok boundary b = true →
   ∃ a', LineDiffer.__init__ a b boundary true ignore_case
         = Ret (Differ.__init__ a' b Re.newline ignore_case)).
Proof.
  destruct (decide (pattern boundary = pattern Re.newline)) as [Heq|Hne].
  - unfold LineDiffer.__init__. rewrite bool_decide_eq_false_2 by (by intros ?).
    split; intros _; by eexists.
  - split; intros Hok.
    + by apply LineDiffer_init_keeps_left.
    + by apply LineDiffer_init_keeps_right.
Qed.

(** An instance over white space: the old text keeps its two spaces. *)
Lemma X17_witness :
  matches_ok Re.whitespace (lit "a  b") = true ∧
  LineDiffer.__init__ (lit "a  b") (lit "a c") Re.whitespace false false
    = Ret (Differ.__init__ (lit "a  b") (lit "a  c") Re.newline false) ∧
  ∃ b', LineDiffer.__init__ (lit "a  b") (lit "a c") Re.whitespace false false
        = Ret (Differ.__init__ (lit "a  b") b' Re.newline false).
Proof.
  split; [reflexivity|]. split; [reflexivity|].
  apply (X17_line_differ_keeps_side (lit "a  b") (lit "a c") Re.whitespace false).
  reflexivity.
Defined.

(** X18. No style of diff raises: for all texts, boundaries, contexts
    and options, the unified, the context, the normal and the word diff
    return a string; no assertion of the program fails and no index is
    out of range. *)
Theorem X18_diffs_never_raise (a b : str) (boundary : regex) (context : nat)
    (mk : markers) (ignore_case reverse : bool) :
  (∃ out, unified_diff a b boundary context ignore_case reverse = Ret out) ∧
  (∃ out, context_diff a b boundary context ignore_case reverse = Ret out) ∧
  (∃ out, normal_diff a b boundary ignore_case reverse = Ret out) ∧
  (∃ out, word_diff a b boundary mk ignore_case = Ret out).
Proof. apply diffs_Ret. Qed.

(** X19. The empty text is the only one without tokens. *)
Theorem X19_only_empty_text_has_no_token (s : str) (boundary : regex) :
  matches_ok boundary s = true → matches_ok boundary [] = true →
  Tokenizer.__init__ s boundary = [] ↔ s = [].
Proof. apply Tokenizer_empty_iff. Qed.

(** An instance: a text of white space only has a token. *)
Lemma X19_witness :
  matches_ok Re.whitespace (lit "  ") = true ∧ matches_ok Re.whitespace [] = true ∧
  Tokenizer.__init__ (lit "  ") Re.whitespace ≠ [].
Proof.
  split; [reflexivity|]. split; [reflexivity|]. intros Hnil.
  apply (X19_only_empty_text_has_no_token (lit "  ") Re.whitespace) in Hnil;
    [discriminate | reflexivity | reflexivity].
Defined.

(** X20. What is reported as common is common: every block labelled
    common joins a run of tokens of the left text and a run of as many
    tokens of the right text whose words are equal one by one, up to
    case when case is ignored. Only the separators may differ. *)
Theorem X20_common_blocks_are_equal (a b : str) (boundary : regex) (ignore_case : bool)
    (bs : list Delta) :
  Differ.blocks (Differ.__init__ a b boundary ignore_case) = Ret bs →
  Forall (λ d, op d = op_c →
    ∃ i j n, 0 < n ∧
      Tokenizer.join (Tokenizer.__init__ a boundary) i (i + n) = Ret (Some (lhs d)) ∧
      Tokenizer.join (Tokenizer.__init__ b boundary) j (j + n) = Ret (Some (rhs d)) ∧
      (λ t, (if ignore_case then Py.lower else id) (word t))
        <$> Py.slice (Tokenizer.__init__ a boundary) i (i + n) =
      (λ t, (if ignore_case then Py.lower else id) (word t))
        <$> Py.slice (Tokenizer.__init__ b boundary) j (j + n)) bs.
Proof. apply Differ_blocks_common. Qed.

(** An instance with case ignored and uneven spacing. *)
Lemma X20_witness :
  ∃ bs,
    Differ.blocks (Differ.__init__ (lit "x The  Fox") (lit "the fox y") Re.whitespace true)
      = Ret bs ∧
    Forall (λ d, op d = op_c →
      ∃ i j n, 0 < n ∧
        Tokenizer.join (Tokenizer.__init__ (lit "x The  Fox") Re.whitespace) i (i + n)
          = Ret (Some (lhs d)) ∧
        Tokenizer.join (Tokenizer.__init__ (lit "the fox y") Re.whitespace) j (j + n)
          = Ret (Some (rhs d)) ∧
        (λ t, Py.lower (word t))
          <$> Py.slice (Tokenizer.__init__ (lit "x The  Fox") Re.whitespace) i (i + n) =
        (λ t, Py.lower (word t))
          <$> Py.slice (Tokenizer.__init__ (lit "the fox y") Re.whitespace) j (j + n)) bs.
Proof.
  exists_result
    (Differ.blocks (Differ.__init__ (lit "x The  Fox") (lit "the fox y") Re.whitespace true)).
  split; [vm_compute; reflexivity|].
  apply (X20_common_blocks_are_equal (lit "x The  Fox") (lit "the fox y") Re.whitespace true).
  vm_compute; reflexivity.
Defined.


